(** * List view drag-and-drop: tree indexing, expansion state, drag
      controller and drop committer of the block editor's list view.

    The development embeds [countBlocks] / [ListViewBranch] row numbering
    (list-view/branch.js) and [expanded], [removeItemFromTree],
    [addItemToTree], [moveItem], [dropItem] (list-view/index.js, the
    velocity-based variant) and proves the properties the specification
    states about them.  It then covers the rest of these files: the rows
    [ListViewBranch] renders, [expand], [collapse] and [toggleExpanded],
    [findFirstValidPosition], and the translate-based variant of index.js
    with its [findCurrentPosition], and relates the two variants. *)

From Stdlib Require Import QArith Qabs Lqa.
From stdpp Require Import base gmap strings list fin_maps.

Local Open Scope string_scope.
Local Open Scope list_scope.
Local Open Scope Z_scope.

(** ** Data model *)

(** A node of the client-ids tree: [{ clientId, innerBlocks }].  The spread
    copies [{ ...block }] and [{ ...block, innerBlocks }] of the source keep
    every other own property of the node, so they are structural copies. *)
#[warnings="-register-all"]
Inductive Block : Type :=
  mkBlock { clientId : string; innerBlocks : list Block }.

#[global] Instance Block_eq_dec : EqDecision Block.
Proof.
  refine (fix go (x y : Block) {struct x} : Decision (x = y) :=
            match x, y with
            | mkBlock a k, mkBlock b l =>
                cast_if_and (decide (a = b)) (@list_eq_dec _ go k l)
            end); clear go; congruence.
Defined.

(** [{ ...block, innerBlocks }] *)
Definition withInnerBlocks (block : Block) (inner : list Block) : Block :=
  mkBlock (clientId block) inner.

(** [{ ...block }] *)
Definition spread (block : Block) : Block :=
  mkBlock (clientId block) (innerBlocks block).

(** ** Tree indexing (index.js) *)

(** The object [{ newTree, removeParentId }] returned by
    [removeItemFromTree]. *)
Module Removed.
Record t : Type := mk { newTree : list Block; removeParentId : string }.
End Removed.

(** The object [{ newTree, targetId, targetIndex }] returned by
    [addItemToTree]. *)
Module Added.
Record t : Type :=
  mk { newTree : list Block; targetId : string; targetIndex : Z }.
End Added.

Section RemoveLoop.
(** The recursive call [removeItemFromTree( block.innerBlocks, id,
    block.clientId )] on a child. *)
Variable removeInner : Block -> Removed.t.
Variables id parentId : string.

(** The [for] loop of [removeItemFromTree], threading the two locals
    [newTree] and [removeParentId]. *)
Fixpoint removeLoop (tree : list Block) (newTree : list Block)
    (removeParentId : string) : Removed.t :=
  match tree with
  | [] => Removed.mk newTree removeParentId
  | block :: rest =>
      if bool_decide (clientId block ≠ id) then
        if 0 <? Z.of_nat (length (innerBlocks block)) then
          let res := removeInner block in
          let cRemoveParentId := Removed.removeParentId res in
          removeLoop rest
            (newTree ++ [withInnerBlocks block (Removed.newTree res)])
            (if bool_decide (cRemoveParentId ≠ "")
             then cRemoveParentId else removeParentId)
        else
          removeLoop rest (newTree ++ [spread block]) removeParentId
      else
        removeLoop rest newTree parentId
  end.
End RemoveLoop.

Fixpoint removeItemFromInner (id : string) (block : Block) : Removed.t :=
  removeLoop (removeItemFromInner id) id (clientId block)
    (innerBlocks block) [] "".

(** [removeItemFromTree( tree, id, parentId = '' )] *)
Definition removeItemFromTree (tree : list Block) (id : string)
    (parentId : string) : Removed.t :=
  removeLoop (removeItemFromInner id) id parentId tree [] "".

Section AddLoop.
(** The recursive call [addItemToTree( block.innerBlocks, id, item,
    insertAfter, block.clientId )] on a child. *)
Variable addInner : Block -> Added.t.
Variable id : string.
Variable item : Block.
Variable insertAfter : bool.
Variable parentId : string.

(** The [for] loop of [addItemToTree], threading the locals [newTree],
    [targetIndex] and [targetId]. *)
Fixpoint addLoop (tree : list Block) (newTree : list Block)
    (targetIndex : Z) (targetId : string) : Added.t :=
  match tree with
  | [] => Added.mk newTree targetId targetIndex
  | block :: rest =>
      if bool_decide (clientId block = id) then
        if insertAfter then
          addLoop rest (newTree ++ [spread block] ++ [spread item])
            (Z.of_nat (length newTree) + 1) parentId
        else
          addLoop rest (newTree ++ [spread item] ++ [spread block])
            (Z.of_nat (length newTree)) parentId
      else
        if 0 <? Z.of_nat (length (innerBlocks block)) then
          let res := addInner block in
          let childTargetId := Added.targetId res in
          addLoop rest
            (newTree ++ [withInnerBlocks block (Added.newTree res)])
            (Z.max targetIndex (Added.targetIndex res))
            (if bool_decide (childTargetId ≠ "")
             then childTargetId else targetId)
        else
          addLoop rest (newTree ++ [spread block]) targetIndex targetId
  end.
End AddLoop.

Fixpoint addItemToInner (id : string) (item : Block) (insertAfter : bool)
    (block : Block) : Added.t :=
  addLoop (addItemToInner id item insertAfter) id item insertAfter
    (clientId block) (innerBlocks block) [] (-1) "".

(** [addItemToTree( tree, id, item, insertAfter = true, parentId = '' )] *)
Definition addItemToTree (tree : list Block) (id : string) (item : Block)
    (insertAfter : bool) (parentId : string) : Added.t :=
  addLoop (addItemToInner id item insertAfter) id item insertAfter parentId
    tree [] (-1) "".

(** ** Expansion state (index.js, branch.js) *)

Module Action.
(** [{ type, clientId }] as dispatched by [expand] and [collapse]. *)
Record t : Type := mk { type : string; clientId : string }.
End Action.

(** The reducer [expanded( state, action )]; [{ ...state, ...{ [ id ]: b } }]
    is the map [state] with the entry of [id] overwritten. *)
Definition expanded (state : gmap string bool) (action : Action.t)
    : gmap string bool :=
  if bool_decide (Action.type action = "expand") then
    <[Action.clientId action := true]> state
  else if bool_decide (Action.type action = "collapse") then
    <[Action.clientId action := false]> state
  else state.

(** [expandedState[ clientId ] ?? true] *)
Definition isExpandedIn (expandedState : gmap string bool) (id : string)
    : bool :=
  default true (expandedState !! id).

(** The [isExpanded] of a row in [ListViewBranch]:
    [hasNestedBranch ? expandedState[ clientId ] ?? true : undefined]. *)
Definition rowIsExpanded (expandedState : gmap string bool)
    (hasNestedBranch : bool) (id : string) : option bool :=
  if hasNestedBranch then Some (isExpandedIn expandedState id) else None.

Section CountReducer.
Variable countInner : Block -> Z.
Variable expandedState : gmap string bool.

(** [countReducer( expandedState )] as a function of [( count, block )]. *)
Definition countReducerWith (count : Z) (block : Block) : Z :=
  let isExpanded := isExpandedIn expandedState (clientId block) in
  if isExpanded && (0 <? Z.of_nat (length (innerBlocks block))) then
    count + countInner block
  else count + 1.
End CountReducer.

Fixpoint countBlocks (expandedState : gmap string bool) (block : Block) : Z :=
  let isExpanded := isExpandedIn expandedState (clientId block) in
  if isExpanded then
    1 + fold_left (countReducerWith (countBlocks expandedState) expandedState)
          (innerBlocks block) 0
  else 1.

Definition countReducer (expandedState : gmap string bool)
    : Z -> Block -> Z :=
  countReducerWith (countBlocks expandedState) expandedState.

(** The [listPosition] prop that [ListViewBranch] hands to the rows of
    [filteredBlocks], in order: [nextPosition] starts at the branch's own
    [listPosition] and, from the second row on, grows by [countBlocks] of
    the preceding sibling ([filteredBlocks[ index - 1 ]], here [previous]). *)
Fixpoint branchPositions (expandedState : gmap string bool)
    (previous : option Block) (blocks : list Block) (nextPosition : Z)
    : list Z :=
  match blocks with
  | [] => []
  | block :: rest =>
      let nextPosition :=
        match previous with
        | Some prev => nextPosition + countBlocks expandedState prev
        | None => nextPosition
        end in
      nextPosition :: branchPositions expandedState (Some block) rest nextPosition
  end.

Definition listPositions (expandedState : gmap string bool)
    (filteredBlocks : list Block) (listPosition : Z) : list Z :=
  branchPositions expandedState None filteredBlocks listPosition.

(** ** JavaScript numbers of the gesture (velocity, translate) *)

(** The comparisons the drag controller makes are exact on doubles, so a
    finite double is its rational value; the three special values are kept. *)
Inductive number : Type :=
  | Finite (q : Q)
  | PosInfinity
  | NegInfinity
  | NaN.

(** [Math.abs( x )] *)
Definition js_abs (x : number) : number :=
  match x with
  | Finite q => Finite (Qabs q)
  | PosInfinity | NegInfinity => PosInfinity
  | NaN => NaN
  end.

(** [x > y] *)
Definition js_gt (x y : number) : bool :=
  match x, y with
  | Finite a, Finite b => negb (Qle_bool a b)
  | PosInfinity, (Finite _ | NegInfinity) => true
  | Finite _, NegInfinity => true
  | _, _ => false
  end.

(** [x === y] *)
Definition js_eq (x y : number) : bool :=
  match x, y with
  | Finite a, Finite b => Qeq_bool a b
  | PosInfinity, PosInfinity => true
  | NegInfinity, NegInfinity => true
  | _, _ => false
  end.

(** ** Position ledger, pending placement, component state *)

Module Position.
(** The fields of a ledger entry that [moveItem] reads; [parentId] is
    [None] when the property is [undefined]. *)
Record t : Type := mk { clientId : string; parentId : option string }.
End Position.

Module Target.
(** The object stored in [lastTarget.current]. *)
Record t : Type :=
  mk { clientId : string; originalParent : string;
       targetId : string; targetIndex : Z }.
End Target.

Module MoveBlocks.
(** One call [moveBlocksToPosition( clientIds, fromRootClientId,
    toRootClientId, index )] on the block-editor store. *)
Record t : Type :=
  mk { clientIds : list string; fromRootClientId : string;
       toRootClientId : string; index : Z }.
End MoveBlocks.

(** The state [ListView] closes over: the canonical [clientIdsTree], the
    speculative [tree] ([useState]), the [positions] ledger and
    [lastTarget] ([useRef]), the [dropped] flag, and the effects observed so
    far: the store commands dispatched and the timeouts scheduled. *)
Record ListView : Type :=
  mkListView {
    clientIdsTree : list Block;
    tree : list Block;
    positions : gmap Z Position.t;
    lastTarget : option Target.t;
    dropped : bool;
    dispatched : list MoveBlocks.t;
    timeouts : list Z
  }.

(** [setPosition( clientId, offset )]: [positions[ clientId ] = offset]. *)
Definition setPosition (st : ListView) (key : Z) (offset : Position.t)
    : ListView :=
  mkListView (clientIdsTree st) (tree st) (<[key := offset]> (positions st))
    (lastTarget st) (dropped st) (dispatched st) (timeouts st).

(** ** Drop committer *)

(** [dropItem] up to and including the call of [moveBlocksToPosition]. *)
Definition dropItem (st : ListView) : ListView :=
  match lastTarget st with
  | None => st
  | Some target =>
      mkListView (clientIdsTree st) (tree st) (positions st)
        None true
        (dispatched st ++
           [MoveBlocks.mk [Target.clientId target]
              (Target.originalParent target)
              (Target.targetId target) (Target.targetIndex target)])
        (timeouts st)
  end.

(** What [dropItem] does once the awaited command has settled: it schedules
    the 200 ms timeout that clears [dropped]. *)
Definition dropItemSettled (st : ListView) : ListView :=
  mkListView (clientIdsTree st) (tree st) (positions st) (lastTarget st)
    (dropped st) (dispatched st) (timeouts st ++ [200]).

(** ** Drag controller *)

Inductive Direction : Type := UP | DOWN.

Definition isDOWN (direction : Direction) : bool :=
  match direction with DOWN => true | UP => false end.

Definition isUP (direction : Direction) : bool :=
  match direction with UP => true | DOWN => false end.

(** The argument object of [moveItem]; [velocity] is [None] when
    [velocity?.get()] is nullish. *)
Record DragTick : Type :=
  mkDragTick {
    block : Block;
    translate : number;
    listPosition : Z;
    isLastChild : bool;
    isFirstChild : bool;
    velocity : option number
  }.

Definition ITEM_HEIGHT : Q := 36.

(** Where a call of [moveItem] leaves the function; the two deciding
    exits carry the identity the item is placed next to. *)
Inductive Exit : Type :=
  | ZeroVelocity                     (* [if ( v === 0 ) return] *)
  | BelowThreshold                   (* the threshold test fails *)
  | EscapeToParent (parentId : string) (* the [return] of the break-out branch *)
  | NoAdjacentRow                    (* [if ( targetPosition === undefined ) return] *)
  | SiblingSwap (targetId : string)  (* the body of the sibling-swap [if] *)
  | OtherParent.                     (* the sibling-swap test fails *)

(** [Threw]: [positions[ listPosition ]] is [undefined], reading its
    [parentId] raises a TypeError and nothing has been written. *)
Inductive Outcome : Type :=
  | Threw
  | Returned (exit : Exit) (st : ListView).

(** The component state once the call is over. *)
Definition stateAfter (st : ListView) (o : Outcome) : ListView :=
  match o with
  | Threw => st
  | Returned _ st' => st'
  end.

(** A string in a condition: [undefined] and [''] are falsy. *)
Definition truthy (s : option string) : option string :=
  match s with
  | Some x => if bool_decide (x ≠ "") then Some x else None
  | None => None
  end.

(** [velocity?.get() ?? 0] *)
Definition velocityOf (tick : DragTick) : number :=
  default (Finite 0) (velocity tick).

(** [v > 0 ? DOWN : UP] *)
Definition directionOf (v : number) : Direction :=
  if js_gt v (Finite 0) then DOWN else UP.

(** [Math.abs( translate ) > ITEM_HEIGHT / 2] *)
Definition pastThreshold (translate : number) : bool :=
  js_gt (js_abs translate) (Finite (ITEM_HEIGHT / 2)).

(** [( direction === UP && isFirstChild ) ||
     ( direction === DOWN && isLastChild )] *)
Definition atEdge (direction : Direction) (tick : DragTick) : bool :=
  (isUP direction && isFirstChild tick) || (isDOWN direction && isLastChild tick).

(** [direction === DOWN ? positions[ listPosition + 1 ]
                        : positions[ listPosition - 1 ]] *)
Definition adjacentPosition (st : ListView) (direction : Direction)
    (listPosition : Z) : option Position.t :=
  if isDOWN direction then positions st !! (listPosition + 1)
  else positions st !! (listPosition - 1).

(** The statements both deciding branches of [moveItem] run: remove the
    dragged item from the canonical tree, add [block] next to [target],
    record the pending placement, publish the new tree. *)
Definition publishMove (st : ListView) (item : Block) (target : string)
    (direction : Direction) : ListView :=
  let removed := removeItemFromTree (clientIdsTree st) (clientId item) "" in
  let added :=
    addItemToTree (Removed.newTree removed) target item (isDOWN direction) "" in
  mkListView (clientIdsTree st) (Added.newTree added) (positions st)
    (Some (Target.mk (clientId item) (Removed.removeParentId removed)
             (Added.targetId added) (Added.targetIndex added)))
    (dropped st) (dispatched st) (timeouts st).

Definition moveItem (st : ListView) (tick : DragTick) : Outcome :=
  let v := velocityOf tick in
  if js_eq v (Finite 0) then Returned ZeroVelocity st else
  let direction := directionOf v in
  if pastThreshold (translate tick) then
    match positions st !! listPosition tick with
    | None => Threw
    | Some position =>
        match truthy (Position.parentId position), atEdge direction tick with
        | Some parentId, true =>
            Returned (EscapeToParent parentId)
              (publishMove st (block tick) parentId direction)
        | _, _ =>
            match adjacentPosition st direction (listPosition tick) with
            | None => Returned NoAdjacentRow st
            | Some targetPosition =>
                if bool_decide (Position.parentId position
                                = Position.parentId targetPosition) then
                  Returned (SiblingSwap (Position.clientId targetPosition))
                    (publishMove st (block tick)
                       (Position.clientId targetPosition) direction)
                else Returned OtherParent st
            end
        end
    end
  else Returned BelowThreshold st.

(** ** Observations on trees *)

(** Identities of a node and of all its descendants, in document order. *)
Fixpoint idsOf (b : Block) : list string :=
  clientId b :: (innerBlocks b ≫= idsOf).

(** The identities of a tree snapshot, with multiplicity. *)
Definition ids (tree : list Block) : list string := tree ≫= idsOf.

(** Every node of the tree, at any depth, in document order. *)
Fixpoint nodesOf (b : Block) : list Block :=
  b :: (innerBlocks b ≫= nodesOf).

Definition nodes (tree : list Block) : list Block := tree ≫= nodesOf.

(** The top-most nodes carrying [id]: the nodes [removeItemFromTree] drops,
    each together with its subtree. *)
Fixpoint droppedOf (id : string) (b : Block) : list Block :=
  if bool_decide (clientId b = id) then [b]
  else innerBlocks b ≫= droppedOf id.

Definition droppedNodes (id : string) (tree : list Block) : list Block :=
  tree ≫= droppedOf id.

(** [item] sits immediately after ([after = true]) or before the node
    carrying [target], among that node's siblings; everything else is as in
    the first tree. *)
Inductive placedNextTo (target : string) (item : Block) (after : bool)
    : list Block -> list Block -> Prop :=
  | placed_here l1 p l2 :
      clientId p = target ->
      placedNextTo target item after (l1 ++ p :: l2)
        (l1 ++ (if after then [p; item] else [item; p]) ++ l2)
  | placed_inside l1 b inner l2 :
      placedNextTo target item after (innerBlocks b) inner ->
      placedNextTo target item after (l1 ++ b :: l2)
        (l1 ++ withInnerBlocks b inner :: l2).

(** The tree [removeItemFromTree] returns, written without the loop's
    accumulators; [removeItemFromTree_newTree] ties it to the loop. *)
Fixpoint pruneOf (id : string) (b : Block) : list Block :=
  if bool_decide (clientId b = id) then []
  else [mkBlock (clientId b) (innerBlocks b ≫= pruneOf id)].

Definition prune (id : string) (tree : list Block) : list Block :=
  tree ≫= pruneOf id.

(** The tree [addItemToTree] returns, written without the loop's
    accumulators; [addItemToTree_newTree] ties it to the loop. *)
Fixpoint graftOf (id : string) (item : Block) (insertAfter : bool)
    (b : Block) : list Block :=
  if bool_decide (clientId b = id) then
    if insertAfter then [b; item] else [item; b]
  else [mkBlock (clientId b) (innerBlocks b ≫= graftOf id item insertAfter)].

Definition graft (id : string) (item : Block) (insertAfter : bool)
    (tree : list Block) : list Block :=
  tree ≫= graftOf id item insertAfter.

(** ** The translate-based variant of index.js *)

(** The object [{ parentId, index, block, tree }] that
    [findCurrentPosition] returns on a match; [None] is its [false]. *)
Module Found.
Record t : Type :=
  mk { parentId : string; index : Z; block : Block; tree : list Block }.
End Found.

Section FindLoop.
(** The recursive call [findCurrentPosition( block.innerBlocks, id,
    block.clientId )] on a child. *)
Variable findInner : Block -> option Found.t.
Variables id parentId : string.
(** The array the loop runs over, returned whole in a match. *)
Variable tree : list Block.

(** The [for] loop of [findCurrentPosition] from [index] on; [rest] is
    [tree] from that index. *)
Fixpoint findLoop (rest : list Block) (index : Z) : option Found.t :=
  match rest with
  | [] => None
  | block :: rest =>
      if bool_decide (clientId block = id) then
        Some (Found.mk parentId index block tree)
      else if 0 <? Z.of_nat (length (innerBlocks block)) then
        match findInner block with
        | Some found => Some found
        | None => findLoop rest (index + 1)
        end
      else findLoop rest (index + 1)
  end.
End FindLoop.

Fixpoint findCurrentPositionInner (id : string) (block : Block)
    : option Found.t :=
  findLoop (findCurrentPositionInner id) id (clientId block)
    (innerBlocks block) (innerBlocks block) 0.

(** [findCurrentPosition( tree, id, parentId = '' )] *)
Definition findCurrentPosition (tree : list Block) (id : string)
    (parentId : string) : option Found.t :=
  findLoop (findCurrentPositionInner id) id parentId tree tree 0.

Module Delta.

Section RemoveLoop.
Variable removeInner : Block -> list Block.
Variable id : string.

(** The [for] loop of this variant's [removeItemFromTree]. *)
Fixpoint removeLoop (tree : list Block) (newTree : list Block)
    : list Block :=
  match tree with
  | [] => newTree
  | block :: rest =>
      if bool_decide (clientId block ≠ id) then
        if 0 <? Z.of_nat (length (innerBlocks block)) then
          removeLoop rest
            (newTree ++ [withInnerBlocks block (removeInner block)])
        else removeLoop rest (newTree ++ [spread block])
      else removeLoop rest newTree
  end.
End RemoveLoop.

Fixpoint removeItemFromInner (id : string) (block : Block) : list Block :=
  removeLoop (removeItemFromInner id) id (innerBlocks block) [].

(** [removeItemFromTree( tree, id )] *)
Definition removeItemFromTree (tree : list Block) (id : string)
    : list Block :=
  removeLoop (removeItemFromInner id) id tree [].

Section AddLoop.
Variable addInner : Block -> list Block.
Variable id : string.
Variable item : Block.
Variable insertAfter : bool.

(** The [for] loop of this variant's [addItemToTree]. *)
Fixpoint addLoop (tree : list Block) (newTree : list Block) : list Block :=
  match tree with
  | [] => newTree
  | block :: rest =>
      if bool_decide (clientId block = id) then
        if insertAfter then
          addLoop rest (newTree ++ [spread block] ++ [spread item])
        else
          addLoop rest (newTree ++ [spread item] ++ [spread block])
      else
        if 0 <? Z.of_nat (length (innerBlocks block)) then
          addLoop rest (newTree ++ [withInnerBlocks block (addInner block)])
        else addLoop rest (newTree ++ [spread block])
  end.
End AddLoop.

Fixpoint addItemToInner (id : string) (item : Block) (insertAfter : bool)
    (block : Block) : list Block :=
  addLoop (addItemToInner id item insertAfter) id item insertAfter
    (innerBlocks block) [].

(** [addItemToTree( tree, id, item, insertAfter = true )] *)
Definition addItemToTree (tree : list Block) (id : string) (item : Block)
    (insertAfter : bool) : list Block :=
  addLoop (addItemToInner id item insertAfter) id item insertAfter tree [].

Module Target.
(** The object this variant stores in [lastTarget.current]. *)
Record t : Type :=
  mk { clientId : string; targetPosition : Position.t; movingDown : bool }.
End Target.

(** The [index] argument of the store command: a number, [undefined]
    ([target.index] when [target] is [false]) or [NaN] ([undefined + 1]). *)
Inductive IndexArg : Type :=
  | Index (z : Z)
  | IndexUndefined
  | IndexNaN.

Module MoveBlocks.
(** One call of [moveBlocksToPosition]; a parent argument is [None] when
    it is [undefined], read off a [findCurrentPosition] that returned
    [false]. *)
Record t : Type :=
  mk { clientIds : list string; fromRootClientId : option string;
       toRootClientId : option string; index : IndexArg }.
End MoveBlocks.

(** The state this variant's [ListView] closes over. *)
Record ListView : Type :=
  mkListView {
    clientIdsTree : list Block;
    tree : list Block;
    positions : gmap Z Position.t;
    lastTarget : option Target.t;
    dropped : bool;
    dispatched : list MoveBlocks.t;
    timeouts : list Z
  }.

(** [dropItem]; the command is not awaited here, the timeout is scheduled
    in the same call. *)
Definition dropItem (st : ListView) : ListView :=
  match lastTarget st with
  | None => st
  | Some last =>
      let clientId := Target.clientId last in
      let targetId := Position.clientId (Target.targetPosition last) in
      let target :=
        findCurrentPosition
          (removeItemFromTree (clientIdsTree st) clientId) targetId "" in
      let current := findCurrentPosition (clientIdsTree st) clientId "" in
      let targetIndex :=
        if Target.movingDown last then
          match target with
          | Some found => Index (Found.index found + 1)
          | None => IndexNaN
          end
        else
          match target with
          | Some found => Index (Found.index found)
          | None => IndexUndefined
          end in
      mkListView (clientIdsTree st) (tree st) (positions st) None true
        (dispatched st ++
           [MoveBlocks.mk [clientId] (Found.parentId <$> current)
              (Found.parentId <$> target) targetIndex])
        (timeouts st ++ [200])
  end.

(** [moveItem( block, listPosition, { translate } )] *)
Definition moveItem (st : ListView) (block : Block) (listPosition : Z)
    (translate : number) : ListView :=
  if pastThreshold translate then
    let movingDown := js_gt translate (Finite 0) in
    let targetPosition :=
      if movingDown then positions st !! (listPosition + 1)
      else positions st !! (listPosition - 1) in
    match targetPosition with
    | None => st
    | Some targetPosition =>
        mkListView (clientIdsTree st)
          (addItemToTree
             (removeItemFromTree (clientIdsTree st) (clientId block))
             (Position.clientId targetPosition) block movingDown)
          (positions st)
          (Some (Target.mk (clientId block) targetPosition movingDown))
          (dropped st) (dispatched st) (timeouts st)
    end
  else st.

End Delta.

(** A match names the block carrying the identity, the array that holds
    it, its index there, and the owner of that array. *)
Definition locates (whole : list Block) (p : string) (id : string)
    (found : Found.t) : Prop :=
  clientId (Found.block found) = id /\
  (0 <= Found.index found)%Z /\
  Found.tree found !! Z.to_nat (Found.index found)
    = Some (Found.block found) /\
  Found.block found ∈ nodes whole /\
  ((Found.parentId found = p /\ Found.tree found = whole) \/
   exists parent,
     parent ∈ nodes whole /\
     Found.parentId found = clientId parent /\
     Found.tree found = innerBlocks parent).

(** The second tree is the first with the adjacent siblings [a], [b]
    (in this order) exchanged, at the root or in the [innerBlocks] of some
    node; everything else is as in the first tree. *)
Inductive exchanged (a b : Block) : list Block -> list Block -> Prop :=
  | exchanged_here l1 l2 :
      exchanged a b (l1 ++ a :: b :: l2) (l1 ++ b :: a :: l2)
  | exchanged_inside l1 x inner l2 :
      exchanged a b (innerBlocks x) inner ->
      exchanged a b (l1 ++ x :: l2) (l1 ++ withInnerBlocks x inner :: l2).

(** ** The rows [ListViewBranch] renders (branch.js) *)

Module ListViewBlock.
(** The props of a [ListViewBlock] that [ListViewBranch] computes; the
    callbacks and [showBlockMovers] are handed on as they are. *)
Record t : Type :=
  mk { block : Block; isSelected : bool; isBranchSelected : bool;
       isLastOfSelectedBranch : bool; level : Z; position : Z;
       rowCount : Z; siblingBlockCount : Z; terminatedLevels : list Z;
       isExpanded : option bool; animateToggleOpen : bool;
       listPosition : Z; parentId : option string }.
End ListViewBlock.

Module Appender.
(** The props of a [ListViewAppender]. *)
Record t : Type :=
  mk { parentBlockClientId : option string; position : Z; rowCount : Z;
       level : Z; terminatedLevels : list Z }.
End Appender.

Inductive Element : Type :=
  | BlockRow (row : ListViewBlock.t)
  | AppenderRow (appender : Appender.t).

Module Branch.
(** The props of [ListViewBranch] that change from branch to branch. *)
Record t : Type :=
  mk { parentBlockClientId : option string; level : Z;
       terminatedLevels : list Z; isBranchSelected : bool;
       isLastOfBranch : bool; animateToggleOpen : bool; listPosition : Z }.
End Branch.

(** The defaults of the destructuring: [level = 1], [terminatedLevels = []],
    [isBranchSelected = false], [isLastOfBranch = false],
    [animateToggleOpen = false], [listPosition = 0]. *)
Definition rootBranch (parentBlockClientId : option string) : Branch.t :=
  Branch.mk parentBlockClientId 1 [] false false false 0.

Module View.
(** What is the same in every branch of one render: the list view context
    ([expandedState], [isTreeGridMounted], [animate]), the props
    [showAppender] and [showNestedBlocks], and [isClientIdSelected( ·,
    selectedBlockClientIds )], whose definition (utils.js) is taken as
    given. *)
Record t : Type :=
  mk { expandedState : gmap string bool; isTreeGridMounted : bool;
       animate : bool; showAppender : bool; showNestedBlocks : bool;
       isClientIdSelected : string -> bool }.
End View.

(** [compact( blocks )] on an array whose falsy entries are [None]. *)
Definition compact (blocks : list (option Block)) : list Block :=
  omap id blocks.

Section BranchLoop.
Variable view : View.t.
(** The nested [<ListViewBranch blocks={ innerBlocks } ... />] of a row. *)
Variable renderInner : Block -> Branch.t -> list Element.
Variable props : Branch.t.
Variable filteredBlocks : list Block.

(** [! parentBlockClientId] *)
Definition isTreeRoot : bool :=
  bool_decide (truthy (Branch.parentBlockClientId props) = None).

(** [itemHasAppender( parentClientId )] for an identity. *)
Definition itemHasAppender (parentClientId : string) : bool :=
  View.showAppender view && negb isTreeRoot
  && View.isClientIdSelected view parentClientId.

(** [itemHasAppender( parentBlockClientId )]; without a parent the branch
    is the tree root and the test fails before the selection is read. *)
Definition hasAppender : bool :=
  match Branch.parentBlockClientId props with
  | Some parentClientId => itemHasAppender parentClientId
  | None => false
  end.

Definition blockCount : Z := Z.of_nat (length filteredBlocks).

Definition rowCount : Z := if hasAppender then blockCount + 1 else blockCount.

(** The callback of [map( filteredBlocks, ... )] from [index] on;
    [previous] is [filteredBlocks[ index - 1 ]] when [index > 0]. *)
Fixpoint branchLoop (previous : option Block) (rest : list Block)
    (index : Z) (nextPosition : Z) : list Element :=
  match rest with
  | [] => []
  | block :: rest =>
      let position := index + 1 in
      let isLastRowAtLevel := bool_decide (rowCount = position) in
      let updatedTerminatedLevels :=
        if isLastRowAtLevel
        then Branch.terminatedLevels props ++ [Branch.level props]
        else Branch.terminatedLevels props in
      let hasNestedBlocks :=
        View.showNestedBlocks view
        && (0 <? Z.of_nat (length (innerBlocks block))) in
      let hasNestedAppender := itemHasAppender (clientId block) in
      let hasNestedBranch := hasNestedBlocks || hasNestedAppender in
      let isSelected := View.isClientIdSelected view (clientId block) in
      let isSelectedBranch :=
        Branch.isBranchSelected props || (isSelected && hasNestedBranch) in
      let isLastBlock := bool_decide (index = blockCount - 1) in
      let isLast := isSelected || (Branch.isLastOfBranch props && isLastBlock) in
      let isLastOfSelectedBranch :=
        Branch.isLastOfBranch props && negb hasNestedBranch && isLastBlock in
      let isExpanded :=
        rowIsExpanded (View.expandedState view) hasNestedBranch
          (clientId block) in
      let animateToggle :=
        View.animate view
        && (Branch.animateToggleOpen props
            || (bool_decide (isExpanded = Some true)
                && View.isTreeGridMounted view
                && bool_decide
                     (is_Some (View.expandedState view !! clientId block)))) in
      let nextPosition :=
        match previous with
        | Some prev => nextPosition + countBlocks (View.expandedState view) prev
        | None => nextPosition
        end in
      BlockRow
        (ListViewBlock.mk block isSelected isSelectedBranch
           isLastOfSelectedBranch
           (Branch.level props) position rowCount blockCount
           (Branch.terminatedLevels props) isExpanded animateToggle
           nextPosition (Branch.parentBlockClientId props))
      :: (if hasNestedBranch && bool_decide (isExpanded = Some true) then
            renderInner block
              (Branch.mk (Some (clientId block)) (Branch.level props + 1)
                 updatedTerminatedLevels isSelectedBranch isLast
                 animateToggle (nextPosition + 1))
          else [])
      ++ branchLoop (Some block) rest (index + 1) nextPosition
  end.

(** The fragment a branch returns: its rows, then its appender. *)
Definition branchElements : list Element :=
  branchLoop None filteredBlocks 0 (Branch.listPosition props)
  ++ (if hasAppender then
        [AppenderRow
           (Appender.mk (Branch.parentBlockClientId props) rowCount rowCount
              (Branch.level props) (Branch.terminatedLevels props))]
      else []).
End BranchLoop.

(** The branch rendered for [block.innerBlocks], an array of blocks, which
    [compact] leaves as it is. *)
Fixpoint ListViewBranchInner (view : View.t) (block : Block)
    (props : Branch.t) : list Element :=
  branchElements view (ListViewBranchInner view) props (innerBlocks block).

(** [ListViewBranch( props )], as the sequence of rows it renders. *)
Definition ListViewBranch (view : View.t) (blocks : list (option Block))
    (props : Branch.t) : list Element :=
  branchElements view (ListViewBranchInner view) props (compact blocks).

(** The block rows among rendered elements, in render order. *)
Definition blockRows (elements : list Element) : list ListViewBlock.t :=
  omap (fun e => match e with BlockRow r => Some r | AppenderRow _ => None end)
    elements.

(** A view in which nothing is selected and nested blocks are shown. *)
Definition plainView (expandedState : gmap string bool) : View.t :=
  View.mk expandedState true true false true (fun _ => false).

(** [countBlocks] summed over the blocks of one branch. *)
Definition countAll (expandedState : gmap string bool)
    (blocks : list Block) : Z :=
  foldr (fun block total => countBlocks expandedState block + total) 0 blocks.

(** The identity a row shows. *)
Definition rowId (row : ListViewBlock.t) : string :=
  clientId (ListViewBlock.block row).

(** A row's props against the match [findCurrentPosition] returns for the
    row's identity. *)
Definition rowMatches (props : Branch.t) (p : string) (row : ListViewBlock.t)
    (found : Found.t) : Prop :=
  Found.block found = ListViewBlock.block row /\
  ListViewBlock.position row = (Found.index found + 1)%Z /\
  ListViewBlock.siblingBlockCount row = Z.of_nat (length (Found.tree found)) /\
  ((Found.parentId found = p /\
    ListViewBlock.parentId row = Branch.parentBlockClientId props /\
    ListViewBlock.level row = Branch.level props) \/
   (ListViewBlock.parentId row = Some (Found.parentId found) /\
    (Branch.level props < ListViewBlock.level row)%Z)).

(** ** Expanding and collapsing rows (index.js, branch.js) *)

(** [expand( clientId )] of [ListView]: nothing is dispatched for a falsy
    identity ([undefined] from [row?.dataset?.block], or ['']). *)
Definition expand (state : gmap string bool) (clientId : option string)
    : gmap string bool :=
  match truthy clientId with
  | Some id => expanded state (Action.mk "expand" id)
  | None => state
  end.

(** [collapse( clientId )] of [ListView]. *)
Definition collapse (state : gmap string bool) (clientId : option string)
    : gmap string bool :=
  match truthy clientId with
  | Some id => expanded state (Action.mk "collapse" id)
  | None => state
  end.

(** [toggleExpanded] of a row whose [isExpanded] prop is [isExpanded]. *)
Definition toggleExpanded (state : gmap string bool)
    (isExpanded : option bool) (clientId : string) : gmap string bool :=
  match isExpanded with
  | Some true => collapse state (Some clientId)
  | Some false => expand state (Some clientId)
  | None => state
  end.

(** A call of [expand] ([true]) or [collapse] ([false]) with its
    argument. *)
Definition applyCall (state : gmap string bool)
    (call : bool * option string) : gmap string bool :=
  if fst call then expand state (snd call) else collapse state (snd call).

(** The second tree is the first with [a] taken out of the [innerBlocks] of
    the node carrying [parent] and put right after ([after = true]) or
    before that node; everything else is as in the first tree. *)
Inductive promoted (a : Block) (parent : string) (after : bool)
    : list Block -> list Block -> Prop :=
  | promoted_here l1 k1 k2 l2 :
      promoted a parent after
        (l1 ++ mkBlock parent (k1 ++ a :: k2) :: l2)
        (l1 ++ (if after then [mkBlock parent (k1 ++ k2); a]
                else [a; mkBlock parent (k1 ++ k2)]) ++ l2)
  | promoted_inside l1 x inner l2 :
      promoted a parent after (innerBlocks x) inner ->
      promoted a parent after (l1 ++ x :: l2)
        (l1 ++ withInnerBlocks x inner :: l2).

(** ** Which tree is rendered (index.js) *)

(** [draggingId || dropped ? tree : clientIdsTree], the [blocks] handed to
    the root [ListViewBranch]; [draggingId] is [None] while it is
    [false]. *)
Definition renderedBlocks (draggingId : option string) (st : ListView)
    : list Block :=
  if bool_decide (is_Some (truthy draggingId)) || dropped st
  then tree st else clientIdsTree st.

(** ** [findFirstValidPosition] (index.js, both variants) *)

(** [diff - ITEM_HEIGHT] *)
Definition js_sub_height (diff : number) : number :=
  match diff with
  | Finite q => Finite (q - ITEM_HEIGHT)
  | PosInfinity => PosInfinity
  | NegInfinity => NegInfinity
  | NaN => NaN
  end.

Section FirstValid.
(** A ledger entry, of which the function reads the two flags
    [dropContainer] and [dropSibling] in a condition. *)
Context {Entry : Type}.
Variables dropContainer dropSibling : Entry -> bool.
Variable positions : gmap Z Entry.

(** The [while] loop, at most [fuel] iterations: [None] when the
    iterations are used up, [Some result] when the function returns
    [result] ([None] for [undefined]). *)
Fixpoint firstValidLoop (fuel : nat) (iterate : Z) (index : Z)
    (diff : number) : option (option Entry) :=
  match fuel with
  | O => None
  | S fuel =>
      match positions !! index with
      | Some position =>
          if js_gt diff (Finite (ITEM_HEIGHT / 2)) then
            if dropContainer position || dropSibling position then
              Some (Some position)
            else
              firstValidLoop fuel iterate (index + iterate)
                (js_sub_height diff)
          else Some None
      | None => Some None
      end
  end.

(** [findFirstValidPosition( positions, current, translate, moveDown )];
    each iteration reads a further ledger entry, so one iteration per
    entry and one more is enough. *)
Definition findFirstValidPosition (current : Z) (translate : number)
    (moveDown : bool) : option Entry :=
  let iterate := if moveDown then 1 else -1 in
  default None
    (firstValidLoop (S (size positions)) iterate (current + iterate)
       (js_abs translate)).

(** The ledger entries from [index] on in the direction [iterate]. *)
Definition ahead (iterate : Z) (index : Z) : gmap Z Entry :=
  filter (fun entry => 0 <= (fst entry - index) * iterate) positions.
End FirstValid.

(** A ledger entry with its two drop flags. *)
Module Zone.
Record t : Type := mk { name : string; dropContainer : bool; dropSibling : bool }.
End Zone.


(** ** Sample trees and gestures *)

Definition leaf (id : string) : Block := mkBlock id [].

(** The tree [[A[B, C], D]] of the end-to-end scenario. *)
Definition scenarioTree : list Block :=
  [mkBlock "A" [leaf "B"; leaf "C"]; leaf "D"].

(** [[A[B]]]: a container with one child. *)
Definition nestedTree : list Block := [mkBlock "A" [leaf "B"]].

(** [[A, B]]: two root-level leaves. *)
Definition flatTree : list Block := [leaf "A"; leaf "B"].

(** A component state with canonical tree [canonical] and ledger [ledger],
    before any decision of the current gesture. *)
Definition idleState (canonical : list Block) (ledger : gmap Z Position.t)
    : ListView :=
  mkListView canonical canonical ledger None false [] [].

(** The rows of [[A[B, C], D]], everything expanded. *)
Definition scenarioLedger : gmap Z Position.t :=
  list_to_map
    [(0, Position.mk "A" None); (1, Position.mk "B" (Some "A"));
     (2, Position.mk "C" (Some "A")); (3, Position.mk "D" None)].

Definition scenarioState : ListView := idleState scenarioTree scenarioLedger.

(** Dragging [C] (row 2, last child of [A]) down by 20 pixels. *)
Definition dragCDown : DragTick :=
  mkDragTick (leaf "C") (Finite 20) 2 true false (Some (Finite 1)).

(** Dragging [B] (row 1, first child of [A]) down by 20 pixels. *)
Definition dragBDown : DragTick :=
  mkDragTick (leaf "B") (Finite 20) 1 false true (Some (Finite 1)).

(** Dragging [D] (row 3, last root-level row) up by 20 pixels; the row
    above, [C], has another parent. *)
Definition dragDUp : DragTick :=
  mkDragTick (leaf "D") (Finite (-20)) 3 true false (Some (Finite (-1))).

(** [[A[B], C]]: a container followed by a root-level leaf. *)
Definition collapsedTree : list Block := [mkBlock "A" [leaf "B"]; leaf "C"].

Definition collapsedA : gmap string bool := <["A" := false]> ∅.

(** The [setPosition] calls of one render pass, one per rendered row. *)
Definition renderRows (st : ListView) (rows : list (Z * Position.t))
    : ListView :=
  foldl (fun st row => setPosition st (fst row) (snd row)) st rows.

(** The rows of [[A[B], C]] with [A] expanded: [B] is the row after [A]. *)
Definition expandedRows : list (Z * Position.t) :=
  [(0, Position.mk "A" None); (1, Position.mk "B" (Some "A"));
   (2, Position.mk "C" None)].

(** The rows of [[A[B], C]] with [A] collapsed. *)
Definition collapsedRows : list (Z * Position.t) :=
  [(0, Position.mk "A" None); (1, Position.mk "C" None)].

(** [[A[B], C]] rendered first with [A] expanded and then with [A]
    collapsed.  Row 2 still holds the entry the first pass wrote for [C]:
    the ledger is only ever written through [setPosition]. *)
Definition staleState : ListView :=
  renderRows (renderRows (idleState collapsedTree ∅) expandedRows)
    collapsedRows.


(** The rows of [[A, B]]. *)
Definition flatLedger : gmap Z Position.t :=
  list_to_map [(0, Position.mk "A" None); (1, Position.mk "B" None)].

Definition flatState : ListView := idleState flatTree flatLedger.

(** Dragging [A] (row 0) down by 20 pixels: more than half a row, less than
    a whole one. *)
Definition dragADown20 : DragTick :=
  mkDragTick (leaf "A") (Finite 20) 0 false true (Some (Finite 1)).

(** Dragging [A] (row 0) down by 18 pixels, exactly half a row. *)
Definition dragADown18 : DragTick :=
  mkDragTick (leaf "A") (Finite 18) 0 false true (Some (Finite 1)).

(** A three-node branch [P[X, Y]], a following row [N], and the state in
    which [P] is collapsed. *)
Definition threeNodeBranch : Block := mkBlock "P" [leaf "X"; leaf "Y"].

Definition collapsedP : gmap string bool := <["P" := false]> ∅.

(** * Proofs *)

(** ** Induction over nested trees *)

Lemma Block_nested_ind (P : Block -> Prop) :
  (forall id inner, Forall P inner -> P (mkBlock id inner)) ->
  forall b, P b.
Proof.
  intros step. fix IH 1. intros [id inner]. apply step.
  induction inner as [|x inner IHinner]; constructor; [apply IH | exact IHinner].
Qed.

Lemma forest_ind (P : list Block -> Prop) :
  P [] ->
  (forall id inner rest, P inner -> P rest -> P (mkBlock id inner :: rest)) ->
  forall tree, P tree.
Proof.
  intros Hnil Hcons.
  assert (Hb : forall b, P (innerBlocks b)).
  { induction b as [id inner IH] using Block_nested_ind. simpl.
    induction IH as [|[id' inner'] rest Hx _ IHrest]; [exact Hnil|].
    apply Hcons; [exact Hx | exact IHrest]. }
  intros tree. exact (Hb (mkBlock "" tree)).
Qed.

Lemma spread_id b : spread b = b.
Proof. by destruct b. Qed.

Lemma no_inner_nil (b : Block) :
  (0 <? Z.of_nat (length (innerBlocks b))) = false -> innerBlocks b = [].
Proof.
  intros H. apply Z.ltb_ge in H. destruct (innerBlocks b); [done | simpl in H; lia].
Qed.

Lemma ids_cons b tree : ids (b :: tree) = idsOf b ++ ids tree.
Proof. done. Qed.

Lemma ids_app t1 t2 : ids (t1 ++ t2) = ids t1 ++ ids t2.
Proof. apply bind_app. Qed.

Lemma idsOf_mk id inner : idsOf (mkBlock id inner) = id :: ids inner.
Proof. done. Qed.

Lemma ids_singleton b : ids [b] = idsOf b.
Proof. apply bind_singleton. Qed.

Lemma nodes_cons b tree : nodes (b :: tree) = nodesOf b ++ nodes tree.
Proof. done. Qed.

Lemma nodesOf_mk id inner :
  nodesOf (mkBlock id inner) = mkBlock id inner :: nodes inner.
Proof. done. Qed.

Lemma node_ids_incl tree :
  forall b, b ∈ nodes tree -> forall x, x ∈ idsOf b -> x ∈ ids tree.
Proof.
  induction tree as [|id inner rest IHinner IHrest] using forest_ind;
    intros b Hb x Hx.
  - by apply elem_of_nil in Hb.
  - rewrite nodes_cons, nodesOf_mk in Hb. rewrite ids_cons, idsOf_mk.
    apply elem_of_app in Hb as [Hb|Hb].
    + apply elem_of_cons in Hb as [->|Hb].
      * rewrite idsOf_mk in Hx. apply elem_of_app. by left.
      * apply elem_of_app. left. apply elem_of_cons. right. eauto.
    + apply elem_of_app. right. eauto.
Qed.

Lemma node_id_in tree b : b ∈ nodes tree -> clientId b ∈ ids tree.
Proof.
  intros Hb. apply (node_ids_incl tree b Hb). destruct b. rewrite idsOf_mk.
  apply elem_of_cons. by left.
Qed.

(** ** What [removeItemFromTree] builds *)

Lemma prune_cons id b tree : prune id (b :: tree) = pruneOf id b ++ prune id tree.
Proof. done. Qed.

Lemma pruneOf_mk id c inner :
  pruneOf id (mkBlock c inner) =
  if bool_decide (c = id) then [] else [mkBlock c (prune id inner)].
Proof. done. Qed.

Lemma removeLoop_newTree rec id p tree :
  Forall (fun b => Removed.newTree (rec b) = prune id (innerBlocks b)) tree ->
  forall acc rp,
    Removed.newTree (removeLoop rec id p tree acc rp) = acc ++ prune id tree.
Proof.
  induction 1 as [|b rest Hb _ IH]; intros acc rp.
  - simpl. by rewrite app_nil_r.
  - rewrite prune_cons. destruct b as [c inner]. rewrite pruneOf_mk.
    cbn [removeLoop clientId innerBlocks] in *.
    destruct (decide (c = id)) as [Hc|Hc].
    + rewrite (bool_decide_eq_false_2 (c ≠ id)) by (intros Hx; by apply Hx).
      rewrite (bool_decide_eq_true_2 (c = id)) by done. by rewrite IH.
    + rewrite (bool_decide_eq_true_2 (c ≠ id)) by done.
      rewrite (bool_decide_eq_false_2 (c = id)) by done.
      destruct (0 <? Z.of_nat (length inner)) eqn:Hlen.
      * rewrite IH, Hb. unfold withInnerBlocks. simpl.
        by rewrite <- app_assoc.
      * rewrite IH. apply (no_inner_nil (mkBlock c inner)) in Hlen.
        simpl in Hlen. subst inner. unfold spread. simpl.
        by rewrite <- app_assoc.
Qed.

Lemma removeItemFromInner_newTree id b :
  Removed.newTree (removeItemFromInner id b) = prune id (innerBlocks b).
Proof.
  induction b as [c inner IH] using Block_nested_ind. simpl.
  by rewrite removeLoop_newTree.
Qed.

Lemma removeItemFromTree_newTree tree id p :
  Removed.newTree (removeItemFromTree tree id p) = prune id tree.
Proof.
  unfold removeItemFromTree. rewrite removeLoop_newTree; [done|].
  apply Forall_forall. intros b _. apply removeItemFromInner_newTree.
Qed.

Lemma removeLoop_parent_absent rec id p tree :
  Forall (fun b => clientId b ≠ id /\ Removed.removeParentId (rec b) = "") tree ->
  forall acc rp,
    Removed.removeParentId (removeLoop rec id p tree acc rp) = rp.
Proof.
  induction 1 as [|b rest [Hne Hb] _ IH]; intros acc rp; simpl; [done|].
  rewrite bool_decide_eq_true_2 by done.
  destruct (0 <? _); rewrite IH; [|done].
  rewrite Hb. by rewrite bool_decide_eq_false_2 by (intros Hx; by apply Hx).
Qed.

Lemma removeItemFromInner_parent_absent id b :
  id ∉ ids (innerBlocks b) ->
  Removed.removeParentId (removeItemFromInner id b) = "".
Proof.
  induction b as [c inner IH] using Block_nested_ind. simpl. intros Hnot.
  apply removeLoop_parent_absent.
  induction IH as [|[c' inner'] rest Hx _ IHrest]; constructor.
  - rewrite ids_cons, idsOf_mk in Hnot. simpl. split.
    + intros ->. apply Hnot. apply elem_of_app. left. apply elem_of_cons. by left.
    + apply Hx. simpl. intros Hin. apply Hnot. apply elem_of_app. left.
      apply elem_of_cons. by right.
  - apply IHrest. intros Hin. apply Hnot. rewrite ids_cons.
    apply elem_of_app. by right.
Qed.

Lemma removeItemFromInner_unfold id p tree :
  removeItemFromInner id (mkBlock p tree) = removeItemFromTree tree id p.
Proof. done. Qed.

Lemma removeItemFromTree_parent_absent tree id p :
  id ∉ ids tree -> Removed.removeParentId (removeItemFromTree tree id p) = "".
Proof.
  intros Hnot. rewrite <- removeItemFromInner_unfold.
  by apply removeItemFromInner_parent_absent.
Qed.

Lemma prune_absent id tree : id ∉ ids tree -> prune id tree = tree.
Proof.
  induction tree as [|c inner rest IHinner IHrest] using forest_ind; [done|].
  rewrite ids_cons, idsOf_mk, prune_cons, pruneOf_mk. intros Hnot.
  rewrite bool_decide_eq_false_2.
  - rewrite IHinner, IHrest; [done| |]; intros Hin; apply Hnot.
    + apply elem_of_app. by right.
    + apply elem_of_app. left. apply elem_of_cons. by right.
  - intros ->. apply Hnot. apply elem_of_app. left. apply elem_of_cons. by left.
Qed.

Lemma prune_not_in id tree : id ∉ ids (prune id tree).
Proof.
  induction tree as [|c inner rest IHinner IHrest] using forest_ind.
  - apply not_elem_of_nil.
  - rewrite prune_cons, pruneOf_mk. case_bool_decide as Hc; [done|].
    rewrite ids_app, ids_singleton, idsOf_mk. intros Hin.
    apply elem_of_app in Hin as [Hin|Hin]; [|done].
    apply elem_of_cons in Hin as [->|Hin]; done.
Qed.

Lemma prune_sublist id tree : ids (prune id tree) `sublist_of` ids tree.
Proof.
  induction tree as [|c inner rest IHinner IHrest] using forest_ind; [done|].
  rewrite prune_cons, pruneOf_mk, ids_cons, idsOf_mk.
  case_bool_decide as Hc.
  - by apply sublist_inserts_l with (k := c :: ids inner).
  - rewrite ids_app, ids_singleton, idsOf_mk. simpl. apply sublist_skip.
    by apply sublist_app.
Qed.

Lemma droppedNodes_cons id b tree :
  droppedNodes id (b :: tree) = droppedOf id b ++ droppedNodes id tree.
Proof. done. Qed.

Lemma droppedOf_mk id c inner :
  droppedOf id (mkBlock c inner) =
  if bool_decide (c = id) then [mkBlock c inner] else droppedNodes id inner.
Proof. done. Qed.

Lemma prune_dropped_perm id tree :
  ids tree ≡ₚ ids (prune id tree) ++ ids (droppedNodes id tree).
Proof.
  induction tree as [|c inner rest IHinner IHrest] using forest_ind; [done|].
  rewrite prune_cons, pruneOf_mk, droppedNodes_cons, droppedOf_mk.
  rewrite !ids_app, ids_cons, idsOf_mk.
  case_bool_decide as Hc.
  - rewrite ids_singleton, idsOf_mk. simpl.
    rewrite IHrest at 1. solve_Permutation.
  - rewrite ids_singleton, idsOf_mk. simpl.
    rewrite IHinner at 1. rewrite IHrest at 1. solve_Permutation.
Qed.

Lemma droppedNodes_absent id tree : id ∉ ids tree -> droppedNodes id tree = [].
Proof.
  induction tree as [|c inner rest IHinner IHrest] using forest_ind; [done|].
  rewrite ids_cons, idsOf_mk, droppedNodes_cons, droppedOf_mk. intros Hnot.
  rewrite bool_decide_eq_false_2.
  - rewrite IHinner, IHrest; [done| |]; intros Hin; apply Hnot.
    + apply elem_of_app. by right.
    + apply elem_of_app. left. apply elem_of_cons. by right.
  - intros ->. apply Hnot. apply elem_of_app. left. apply elem_of_cons. by left.
Qed.

Lemma droppedNodes_unique tree :
  NoDup (ids tree) ->
  forall b, b ∈ nodes tree -> droppedNodes (clientId b) tree = [b].
Proof.
  induction tree as [|c inner rest IHinner IHrest] using forest_ind;
    intros Hnd b Hb.
  - by apply elem_of_nil in Hb.
  - rewrite ids_cons, idsOf_mk in Hnd. simpl in Hnd.
    apply NoDup_cons in Hnd as [Hc Hnd].
    apply NoDup_app in Hnd as (Hinner & Hdisj & Hrest).
    rewrite nodes_cons, nodesOf_mk in Hb.
    rewrite droppedNodes_cons, droppedOf_mk.
    apply elem_of_app in Hb as [Hb|Hb].
    + apply elem_of_cons in Hb as [->|Hb]; simpl.
      * rewrite bool_decide_eq_true_2 by done.
        rewrite droppedNodes_absent; [done|].
        intros Hin. apply Hc. apply elem_of_app. by right.
      * pose proof (node_id_in _ _ Hb) as Hid.
        rewrite bool_decide_eq_false_2.
        -- rewrite (IHinner Hinner b Hb).
           rewrite droppedNodes_absent; [done|]. by apply Hdisj.
        -- intros ->. apply Hc. apply elem_of_app. by left.
    + pose proof (node_id_in _ _ Hb) as Hid.
      rewrite bool_decide_eq_false_2.
      * rewrite (IHrest Hrest b Hb).
        rewrite droppedNodes_absent; [done|].
        intros Hin. by apply (Hdisj _ Hin).
      * intros ->. apply Hc. apply elem_of_app. by right.
Qed.

(** Removing the node [b] of a tree with pairwise distinct identities takes
    away exactly the identities of [b]'s subtree. *)
Lemma prune_node_perm tree b :
  NoDup (ids tree) -> b ∈ nodes tree ->
  ids tree ≡ₚ ids (prune (clientId b) tree) ++ idsOf b.
Proof.
  intros Hnd Hb. rewrite (prune_dropped_perm (clientId b) tree) at 1.
  rewrite (droppedNodes_unique tree Hnd b Hb).
  by rewrite ids_singleton.
Qed.

(** ** What [addItemToTree] builds *)

Lemma graft_cons id item after b tree :
  graft id item after (b :: tree) =
  graftOf id item after b ++ graft id item after tree.
Proof. done. Qed.

Lemma graftOf_mk id item after c inner :
  graftOf id item after (mkBlock c inner) =
  if bool_decide (c = id) then
    if after then [mkBlock c inner; item] else [item; mkBlock c inner]
  else [mkBlock c (graft id item after inner)].
Proof. done. Qed.

Lemma addLoop_newTree rec id item after p tree :
  Forall (fun b => Added.newTree (rec b) = graft id item after (innerBlocks b))
    tree ->
  forall acc ti tid,
    Added.newTree (addLoop rec id item after p tree acc ti tid)
    = acc ++ graft id item after tree.
Proof.
  induction 1 as [|b rest Hb _ IH]; intros acc ti tid.
  - simpl. by rewrite app_nil_r.
  - rewrite graft_cons. destruct b as [c inner]. rewrite graftOf_mk.
    cbn [addLoop clientId innerBlocks] in *.
    case_bool_decide as Hc.
    + destruct after; rewrite IH, !spread_id; by rewrite <- app_assoc.
    + destruct (0 <? Z.of_nat (length inner)) eqn:Hlen.
      * rewrite IH, Hb. unfold withInnerBlocks. simpl.
        by rewrite <- app_assoc.
      * rewrite IH. apply (no_inner_nil (mkBlock c inner)) in Hlen.
        simpl in Hlen. subst inner. unfold spread. simpl.
        by rewrite <- app_assoc.
Qed.

Lemma addItemToInner_newTree id item after b :
  Added.newTree (addItemToInner id item after b)
  = graft id item after (innerBlocks b).
Proof.
  induction b as [c inner IH] using Block_nested_ind. simpl.
  by rewrite addLoop_newTree.
Qed.

Lemma addItemToInner_unfold id item after p tree :
  addItemToInner id item after (mkBlock p tree)
  = addItemToTree tree id item after p.
Proof. done. Qed.

Lemma addItemToTree_newTree tree id item after p :
  Added.newTree (addItemToTree tree id item after p) = graft id item after tree.
Proof.
  unfold addItemToTree. rewrite addLoop_newTree; [done|].
  apply Forall_forall. intros b _. apply addItemToInner_newTree.
Qed.

Lemma graft_absent id item after tree :
  id ∉ ids tree -> graft id item after tree = tree.
Proof.
  induction tree as [|c inner rest IHinner IHrest] using forest_ind; [done|].
  rewrite ids_cons, idsOf_mk, graft_cons, graftOf_mk. intros Hnot.
  rewrite bool_decide_eq_false_2.
  - rewrite IHinner, IHrest; [done| |]; intros Hin; apply Hnot.
    + apply elem_of_app. by right.
    + apply elem_of_app. left. apply elem_of_cons. by right.
  - intros ->. apply Hnot. apply elem_of_app. left. apply elem_of_cons. by left.
Qed.

(** With pairwise distinct identities the target is met once, and the item
    is added once. *)
Lemma graft_perm id item after tree :
  NoDup (ids tree) -> id ∈ ids tree ->
  ids (graft id item after tree) ≡ₚ ids tree ++ idsOf item.
Proof.
  induction tree as [|c inner rest IHinner IHrest] using forest_ind;
    intros Hnd Hin.
  - by apply elem_of_nil in Hin.
  - rewrite ids_cons, idsOf_mk in Hnd, Hin. simpl in Hnd, Hin.
    apply NoDup_cons in Hnd as [Hc Hnd].
    apply NoDup_app in Hnd as (Hinner & Hdisj & Hrest).
    rewrite graft_cons, graftOf_mk, ids_app, ids_cons, idsOf_mk.
    case_bool_decide as Heq.
    + subst c. rewrite (graft_absent id item after rest).
      * destruct after; rewrite !ids_cons, idsOf_mk; unfold ids at 2;
          simpl; solve_Permutation.
      * intros Hr. apply Hc. apply elem_of_app. by right.
    + rewrite ids_singleton, idsOf_mk.
      apply elem_of_cons in Hin as [->|Hin]; [done|].
      apply elem_of_app in Hin as [Hin|Hin].
      * rewrite (IHinner Hinner Hin).
        rewrite (graft_absent id item after rest) by by apply Hdisj.
        simpl. solve_Permutation.
      * rewrite (IHrest Hrest Hin).
        rewrite (graft_absent id item after inner).
        -- simpl. solve_Permutation.
        -- intros Hi. by apply (Hdisj _ Hi).
Qed.

Lemma placedNextTo_cons target item after x l l' :
  placedNextTo target item after l l' ->
  placedNextTo target item after (x :: l) (x :: l').
Proof.
  intros [l1 p l2 Hp | l1 b inner l2 Hinner].
  - apply (placed_here target item after (x :: l1) p l2 Hp).
  - apply (placed_inside target item after (x :: l1) b inner l2 Hinner).
Qed.

Lemma graft_placed id item after tree :
  NoDup (ids tree) -> id ∈ ids tree ->
  placedNextTo id item after tree (graft id item after tree).
Proof.
  induction tree as [|c inner rest IHinner IHrest] using forest_ind;
    intros Hnd Hin.
  - by apply elem_of_nil in Hin.
  - rewrite ids_cons, idsOf_mk in Hnd, Hin. simpl in Hnd, Hin.
    apply NoDup_cons in Hnd as [Hc Hnd].
    apply NoDup_app in Hnd as (Hinner & Hdisj & Hrest).
    rewrite graft_cons, graftOf_mk.
    case_bool_decide as Heq.
    + subst c. rewrite (graft_absent id item after rest).
      * apply (placed_here id item after [] (mkBlock id inner) rest). done.
      * intros Hr. apply Hc. apply elem_of_app. by right.
    + apply elem_of_cons in Hin as [->|Hin]; [done|].
      apply elem_of_app in Hin as [Hin|Hin].
      * rewrite (graft_absent id item after rest) by by apply Hdisj.
        apply (placed_inside id item after [] (mkBlock c inner)
                 (graft id item after inner) rest).
        by apply IHinner.
      * rewrite (graft_absent id item after inner).
        -- simpl. apply placedNextTo_cons. by apply IHrest.
        -- intros Hi. by apply (Hdisj _ Hi).
Qed.

(** ** Tree indexing: the stated properties *)

Ltac by_computation := refine (bool_decide_unpack _ _); vm_compute; exact I.

(** C6. Removing an identity that occurs nowhere in the tree returns the
    tree itself (every node kept, same order, same shape) together with the
    empty-string parent, whatever [parentId] the call was given. *)
Theorem removeItemFromTree_absent (tree : list Block) (id parentId : string) :
  id ∉ ids tree ->
  removeItemFromTree tree id parentId = Removed.mk tree "".
Proof.
  intros Hnot.
  pose proof (removeItemFromTree_newTree tree id parentId) as Htree.
  pose proof (removeItemFromTree_parent_absent tree id parentId Hnot) as Hparent.
  rewrite (prune_absent id tree Hnot) in Htree.
  destruct (removeItemFromTree tree id parentId) as [t r]. simpl in *.
  by subst.
Qed.

Lemma removeItemFromTree_absent_witness :
  ("Z" ∉ ids scenarioTree) /\
  removeItemFromTree scenarioTree "Z" "" = Removed.mk scenarioTree "".
Proof.
  split; [by_computation|].
  apply (removeItemFromTree_absent scenarioTree "Z" ""). by_computation.
Defined.

(** C10, as stated, fails: removing [A] from [[A[B]]] also removes [B],
    a node with another identity. *)
Lemma removeItemFromTree_loses_descendants :
  ("B" ∈ ids nestedTree) /\ ("B" ≠ "A") /\
  ("B" ∉ ids (Removed.newTree (removeItemFromTree nestedTree "A" ""))) /\
  ids (Removed.newTree (removeItemFromTree nestedTree "A" ""))
    ≠ filter (fun x => x ≠ "A") (ids nestedTree).
Proof.
  split; [by_computation|]. split; [done|]. split; [by_computation|].
  vm_compute. discriminate.
Qed.

(** C10, amended. The tree returned by [removeItemFromTree] has no node
    carrying [id] at any depth; every top-most node carrying [id] is dropped
    together with its whole subtree ([droppedNodes]); the identities that
    remain are those of the input outside the dropped subtrees, in their
    original relative order. *)
Theorem removeItemFromTree_excludes_all (tree : list Block)
    (id parentId : string) :
  let newTree := Removed.newTree (removeItemFromTree tree id parentId) in
  (id ∉ ids newTree) /\
  (ids newTree `sublist_of` ids tree) /\
  (ids tree ≡ₚ ids newTree ++ ids (droppedNodes id tree)) /\
  Forall (fun b => clientId b = id) (droppedNodes id tree).
Proof.
  simpl. rewrite removeItemFromTree_newTree.
  split; [apply prune_not_in|]. split; [apply prune_sublist|].
  split; [apply prune_dropped_perm|].
  induction tree as [|c inner rest IHinner IHrest] using forest_ind.
  - constructor.
  - rewrite droppedNodes_cons, droppedOf_mk. apply Forall_app. split; [|done].
    case_bool_decide; [|done]. by constructor.
Qed.

(** Removing a node of a tree with pairwise distinct identities and adding
    it back next to an identity outside its subtree rearranges the tree. *)
Lemma graft_prune_perm (T : list Block) (node : Block) (target : string)
    (after : bool) :
  NoDup (ids T) -> node ∈ nodes T ->
  target ∈ ids T -> target ∉ idsOf node ->
  ids (graft target node after (prune (clientId node) T)) ≡ₚ ids T.
Proof.
  intros Hnd Hnode Hin Hout.
  pose proof (prune_node_perm T node Hnd Hnode) as Hperm.
  rewrite graft_perm.
  - by rewrite Hperm.
  - exact (sublist_NoDup _ _ Hnd (prune_sublist _ _)).
  - rewrite Hperm in Hin. apply elem_of_app in Hin as [Hin|Hin]; done.
Qed.

(** C2, as stated, fails: once [A] is removed there is no [A] left to
    insert next to, so inserting with target [A] adds nothing. *)
Lemma insert_at_removed_identity_loses_it :
  (leaf "A" ∈ nodes flatTree) /\
  ids (Added.newTree
         (addItemToTree
            (Removed.newTree (removeItemFromTree flatTree "A" ""))
            "A" (leaf "A") true "")) = ["B"] /\
  ~ (["B"] ≡ₚ ids flatTree).
Proof.
  split; [by_computation|]. split; [done|].
  intros Hp. apply Permutation_length in Hp. discriminate Hp.
Qed.

(** C2, amended. Let [node] be a node of a tree [T] whose identities are
    pairwise distinct, and [id] its identity.  Inserting [node] into
    [remove(T, id)] with [id] itself as the target returns [remove(T, id)]
    unchanged; inserting it next to any target identity of [T] outside
    [node]'s subtree yields a tree with the same multiset of identities
    as [T]. *)
Theorem remove_then_insert_same_identities (T : list Block) (node : Block)
    (after : bool) :
  NoDup (ids T) -> node ∈ nodes T ->
  let id := clientId node in
  let removed := Removed.newTree (removeItemFromTree T id "") in
  Added.newTree (addItemToTree removed id node after "") = removed /\
  forall target, target ∈ ids T -> target ∉ idsOf node ->
    ids (Added.newTree (addItemToTree removed target node after "")) ≡ₚ ids T.
Proof.
  intros Hnd Hnode. simpl. rewrite removeItemFromTree_newTree. split.
  - rewrite addItemToTree_newTree. apply graft_absent, prune_not_in.
  - intros target Hin Hout. rewrite addItemToTree_newTree.
    by apply graft_prune_perm.
Qed.

Lemma remove_then_insert_same_identities_witness :
  NoDup (ids scenarioTree) /\ (leaf "C" ∈ nodes scenarioTree) /\
  ("A" ∈ ids scenarioTree) /\ ("A" ∉ idsOf (leaf "C")) /\
  ids (Added.newTree
         (addItemToTree
            (Removed.newTree (removeItemFromTree scenarioTree "C" ""))
            "A" (leaf "C") true "")) ≡ₚ ids scenarioTree.
Proof.
  assert (Hnd : NoDup (ids scenarioTree)) by by_computation.
  assert (Hnode : leaf "C" ∈ nodes scenarioTree) by by_computation.
  assert (Hin : "A" ∈ ids scenarioTree) by by_computation.
  assert (Hout : "A" ∉ idsOf (leaf "C")) by by_computation.
  repeat split; try assumption.
  exact (proj2 (remove_then_insert_same_identities scenarioTree (leaf "C") true
                  Hnd Hnode) "A" Hin Hout).
Defined.

(** ** Drag controller *)

Lemma publishMove_tree st item target direction :
  tree (publishMove st item target direction)
  = graft target item (isDOWN direction) (prune (clientId item) (clientIdsTree st)).
Proof.
  unfold publishMove. simpl.
  by rewrite addItemToTree_newTree, removeItemFromTree_newTree.
Qed.

(** The state a call returns, by exit. *)
Lemma moveItem_returned st tick exit st' :
  moveItem st tick = Returned exit st' ->
  match exit with
  | EscapeToParent target | SiblingSwap target =>
      st' = publishMove st (block tick) target (directionOf (velocityOf tick))
  | _ => st' = st
  end.
Proof.
  unfold moveItem. repeat case_match; intros ?; simplify_eq; done.
Qed.




Lemma truthy_Some s p : truthy s = Some p <-> s = Some p /\ p ≠ "".
Proof.
  unfold truthy. destruct s as [x|].
  - case_bool_decide as Hx; split.
    + intros [= ->]. done.
    + intros [[= ->] _]. done.
    + discriminate.
    + intros [[= ->] Hne]. done.
  - split; [discriminate | intros [[=] _]].
Qed.

Lemma truthy_None s : truthy s = None <-> s = None \/ s = Some "".
Proof.
  unfold truthy. destruct s as [x|].
  - case_bool_decide as Hx; split.
    + discriminate.
    + intros [[=] | [= ->]]. done.
    + intros _. right. by rewrite Hx.
    + done.
  - split; [by left | done].
Qed.

Lemma atEdge_true direction tick :
  atEdge direction tick = true <->
  (direction = UP /\ isFirstChild tick = true) \/
  (direction = DOWN /\ isLastChild tick = true).
Proof.
  unfold atEdge. destruct direction, (isFirstChild tick), (isLastChild tick);
    simpl; split; try done; try (intros _; by (left + right));
    intros [[? ?] | [? ?]]; done.
Qed.

(** Closes a branch of [moveItem] that does not end in the break-out
    [return]. *)
Ltac not_the_escape_exit :=
  split;
  [ discriminate
  | intros (? & ? & (? & ? & ?) & ? & ? & _); simplify_eq; congruence ].

(** The break-out branch is taken exactly on these ticks. *)
Lemma moveItem_escape_iff st tick p st' :
  moveItem st tick = Returned (EscapeToParent p) st' <->
  js_eq (velocityOf tick) (Finite 0) = false /\
  pastThreshold (translate tick) = true /\
  (exists position,
      positions st !! listPosition tick = Some position /\
      Position.parentId position = Some p) /\
  p ≠ "" /\
  atEdge (directionOf (velocityOf tick)) tick = true /\
  st' = publishMove st (block tick) p (directionOf (velocityOf tick)).
Proof.
  unfold moveItem.
  destruct (js_eq (velocityOf tick) (Finite 0)) eqn:Hv;
    [not_the_escape_exit|].
  destruct (pastThreshold (translate tick)) eqn:Hth;
    [|not_the_escape_exit].
  destruct (positions st !! listPosition tick) as [position|] eqn:Hpos;
    [|not_the_escape_exit].
  destruct (truthy (Position.parentId position)) as [q|] eqn:Htr.
  - apply truthy_Some in Htr as [Hq Hne].
    destruct (atEdge (directionOf (velocityOf tick)) tick) eqn:Hedge.
    + split.
      * intros [= <- <-]. repeat split; eauto.
      * intros (_ & _ & (pos' & [= <-] & Hp) & _ & _ & ->).
        rewrite Hq in Hp. by injection Hp as ->.
    + repeat case_match; not_the_escape_exit.
  - apply truthy_None in Htr.
    destruct Htr as [Hroot|Hroot]; repeat case_match; not_the_escape_exit.
Qed.

(** C3. The escape-to-parent branch of [moveItem] is taken exactly when the
    tick has nonzero velocity and is past the threshold, the dragged row's
    ledger entry has a non-empty [parentId], and the direction is up with
    the row the first child or down with the row the last child.  It is
    never taken for a row whose [parentId] is undefined or empty.  When it
    is taken the block is added next to the former parent, after it when
    moving down and before it when moving up, among the parent's siblings. *)
Theorem escape_to_parent_fires_exactly (st : ListView) (tick : DragTick) :
  let direction := directionOf (velocityOf tick) in
  let without :=
    Removed.newTree
      (removeItemFromTree (clientIdsTree st) (clientId (block tick)) "") in
  (forall p st',
      moveItem st tick = Returned (EscapeToParent p) st' <->
      js_eq (velocityOf tick) (Finite 0) = false /\
      pastThreshold (translate tick) = true /\
      (exists position,
          positions st !! listPosition tick = Some position /\
          Position.parentId position = Some p) /\
      p ≠ "" /\
      ((direction = UP /\ isFirstChild tick = true) \/
       (direction = DOWN /\ isLastChild tick = true)) /\
      st' = publishMove st (block tick) p direction) /\
  (forall position,
      positions st !! listPosition tick = Some position ->
      Position.parentId position = None \/
      Position.parentId position = Some "" ->
      forall p st', moveItem st tick ≠ Returned (EscapeToParent p) st') /\
  (forall p st',
      moveItem st tick = Returned (EscapeToParent p) st' ->
      tree st' =
        Added.newTree
          (addItemToTree without p (block tick) (isDOWN direction) "") /\
      (NoDup (ids (clientIdsTree st)) -> p ∈ ids without ->
       placedNextTo p (block tick) (isDOWN direction) without (tree st'))).
Proof.
  intros direction without. split; [|split].
  - intros p st'. rewrite moveItem_escape_iff, atEdge_true. done.
  - intros position Hpos Hroot p st' Hm.
    apply moveItem_escape_iff in Hm
      as (_ & _ & (pos' & Hpos' & Hp) & Hne & _).
    rewrite Hpos in Hpos'. injection Hpos' as <-.
    destruct Hroot as [Hroot|Hroot]; rewrite Hroot in Hp; congruence.
  - intros p st' Hm. apply moveItem_returned in Hm. simpl in Hm. subst st'.
    split; [done|].
    intros Hnd Hin. rewrite publishMove_tree. subst without.
    rewrite removeItemFromTree_newTree in *.
    apply graft_placed; [|done].
    exact (sublist_NoDup _ _ Hnd (prune_sublist _ _)).
Qed.

Lemma escape_to_parent_fires_exactly_witness :
  moveItem scenarioState dragCDown
    = Returned (EscapeToParent "A")
        (publishMove scenarioState (leaf "C") "A" DOWN) /\
  tree (publishMove scenarioState (leaf "C") "A" DOWN)
    = [mkBlock "A" [leaf "B"]; leaf "C"; leaf "D"] /\
  placedNextTo "A" (leaf "C") true
    [mkBlock "A" [leaf "B"]; leaf "D"]
    (tree (publishMove scenarioState (leaf "C") "A" DOWN)).
Proof.
  assert (Hmove : moveItem scenarioState dragCDown
                  = Returned (EscapeToParent "A")
                      (publishMove scenarioState (leaf "C") "A" DOWN))
    by (vm_compute; reflexivity).
  split; [exact Hmove|]. split; [vm_compute; reflexivity|].
  apply (proj2 (proj2 (proj2 (escape_to_parent_fires_exactly
                                scenarioState dragCDown))
                  "A" _ Hmove)).
  - by_computation.
  - by_computation.
Defined.

(** C4. On a tick past the threshold that does not take the break-out
    branch, if the ledger has no entry for the adjacent row in the drag
    direction, or that entry's [parentId] differs from the dragged row's,
    the call changes nothing: no tree is published, [lastTarget] keeps its
    value, and no sibling swap happens.  A sibling swap only ever happens
    with an adjacent row whose [parentId] equals the dragged row's. *)
Theorem sibling_swap_needs_shared_parent (st : ListView) (tick : DragTick) :
  let direction := directionOf (velocityOf tick) in
  let adjacent := adjacentPosition st direction (listPosition tick) in
  (pastThreshold (translate tick) = true ->
   (forall p st', moveItem st tick ≠ Returned (EscapeToParent p) st') ->
   adjacent = None \/
   (exists position a,
       positions st !! listPosition tick = Some position /\
       adjacent = Some a /\
       Position.parentId a ≠ Position.parentId position) ->
   stateAfter st (moveItem st tick) = st /\
   forall t st', moveItem st tick ≠ Returned (SiblingSwap t) st') /\
  (forall t st',
      moveItem st tick = Returned (SiblingSwap t) st' ->
      exists position a,
        positions st !! listPosition tick = Some position /\
        adjacent = Some a /\
        Position.parentId a = Position.parentId position /\
        Position.clientId a = t /\
        st' = publishMove st (block tick) t direction).
Proof.
  intros direction adjacent. split.
  - intros _ Hescape Hadj. unfold moveItem in *.
    fold direction in Hescape |- *. fold adjacent in Hescape |- *.
    destruct (js_eq (velocityOf tick) (Finite 0)); [by split|].
    destruct (pastThreshold (translate tick)); [|by split].
    destruct (positions st !! listPosition tick) as [position|]; [|by split].
    destruct (truthy (Position.parentId position)) as [q|],
             (atEdge direction tick);
      try (exfalso; by eapply Hescape);
      (destruct Hadj as [-> | (pos' & a & [= <-] & -> & Hne)];
       [by split | rewrite bool_decide_eq_false_2 by done; by split]).
  - intros t st' Hm. pose proof (moveItem_returned _ _ _ _ Hm) as Hst.
    simpl in Hst. unfold moveItem in Hm.
    fold direction in Hm. fold adjacent in Hm.
    repeat case_match; simplify_eq;
      (eexists _, _; split_and!; try done;
       match goal with
       | H : bool_decide _ = true |- _ =>
           apply bool_decide_eq_true in H; by rewrite H
       end).
Qed.

Lemma sibling_swap_needs_shared_parent_witness :
  stateAfter scenarioState (moveItem scenarioState dragDUp) = scenarioState /\
  (exists position a,
      positions scenarioState !! 1 = Some position /\
      adjacentPosition scenarioState DOWN 1 = Some a /\
      Position.parentId a = Position.parentId position /\
      Position.clientId a = "C").
Proof.
  split.
  - apply (proj1 (sibling_swap_needs_shared_parent scenarioState dragDUp)).
    + vm_compute; reflexivity.
    + intros p st'. vm_compute. discriminate.
    + right. exists (Position.mk "D" None), (Position.mk "C" (Some "A")).
      split; [vm_compute; reflexivity|]. split; [vm_compute; reflexivity|].
      simpl. discriminate.
  - destruct (proj2 (sibling_swap_needs_shared_parent scenarioState dragBDown)
                "C" (publishMove scenarioState (leaf "B") "C" DOWN))
      as (position & a & Hpos & Hadj & Hpar & Hid & _).
    + vm_compute; reflexivity.
    + exists position, a. repeat split; assumption.
Defined.

(** C5, as stated, fails: a translation of 20 pixels is below one row's
    height of 36, yet the tick swaps [A] with [B]: a tree is published and
    a pending placement recorded. *)
Lemma moveItem_decides_below_one_row :
  (Qabs 20 <= ITEM_HEIGHT)%Q /\
  js_eq (velocityOf dragADown20) (Finite 0) = false /\
  moveItem flatState dragADown20
    = Returned (SiblingSwap "B") (publishMove flatState (leaf "A") "B" DOWN) /\
  tree (publishMove flatState (leaf "A") "B" DOWN) = [leaf "B"; leaf "A"] /\
  tree flatState = [leaf "A"; leaf "B"] /\
  lastTarget (publishMove flatState (leaf "A") "B" DOWN)
    = Some (Target.mk "A" "" "" 1) /\
  lastTarget flatState = None.
Proof.
  split; [by vm_compute|]. repeat split; vm_compute; reflexivity.
Qed.

(** C5, amended.  The dead zone is half a row: on a tick with nonzero
    velocity whose absolute translation is at most [ITEM_HEIGHT / 2] = 18,
    [moveItem] makes no decision and leaves the component state, hence the
    speculative tree and [lastTarget], as it was. *)
Theorem moveItem_dead_zone (st : ListView) (tick : DragTick) (q : Q) :
  translate tick = Finite q ->
  (Qabs q <= ITEM_HEIGHT / 2)%Q ->
  js_eq (velocityOf tick) (Finite 0) = false ->
  moveItem st tick = Returned BelowThreshold st.
Proof.
  intros Htr Hq Hv. unfold moveItem. rewrite Hv.
  unfold pastThreshold. rewrite Htr. simpl.
  apply Qle_bool_iff in Hq. by rewrite Hq.
Qed.

Lemma moveItem_dead_zone_witness :
  (ITEM_HEIGHT / 2 == 18)%Q /\
  moveItem flatState dragADown18 = Returned BelowThreshold flatState.
Proof.
  split; [reflexivity|].
  apply (moveItem_dead_zone flatState dragADown18 18).
  - reflexivity.
  - by vm_compute.
  - reflexivity.
Defined.

(** ** Drop committer *)

(** C7. [dropItem] changes nothing when there is no pending placement.
    With a pending placement it dispatches exactly one
    [moveBlocksToPosition] whose arguments are the four fields of the
    pending placement, whatever the canonical and speculative trees and the
    ledger are by then, and clears the pending placement, so that a second
    [dropItem] dispatches nothing.  After a decision of [moveItem] those
    fields are the dragged block's identity, the parent [removeItemFromTree]
    reported and the parent and index [addItemToTree] reported. *)
Theorem dropItem_commits_pending_placement (st : ListView) :
  (lastTarget st = None -> dropItem st = st) /\
  (forall target,
      lastTarget st = Some target ->
      dispatched (dropItem st)
        = dispatched st ++
            [MoveBlocks.mk [Target.clientId target]
               (Target.originalParent target) (Target.targetId target)
               (Target.targetIndex target)] /\
      lastTarget (dropItem st) = None /\
      dropItem (dropItem st) = dropItem st) /\
  (forall canonical speculative ledger,
      dispatched
        (dropItem (mkListView canonical speculative ledger (lastTarget st)
                     (dropped st) (dispatched st) (timeouts st)))
      = dispatched (dropItem st)) /\
  (forall item target direction,
      let removed :=
        removeItemFromTree (clientIdsTree st) (clientId item) "" in
      let added :=
        addItemToTree (Removed.newTree removed) target item
          (isDOWN direction) "" in
      dispatched (dropItem (publishMove st item target direction))
      = dispatched st ++
          [MoveBlocks.mk [clientId item] (Removed.removeParentId removed)
             (Added.targetId added) (Added.targetIndex added)]).
Proof.
  unfold dropItem. split; [|split; [|split]].
  - by intros ->.
  - intros target ->. by repeat split.
  - intros canonical speculative ledger. simpl. by destruct (lastTarget st).
  - done.
Qed.

Lemma dropItem_commits_pending_placement_witness :
  dropItem scenarioState = scenarioState /\
  dispatched (dropItem (publishMove scenarioState (leaf "C") "A" DOWN))
    = [MoveBlocks.mk ["C"] "A" "" 1] /\
  dispatched
    (dropItem (dropItem (publishMove scenarioState (leaf "C") "A" DOWN)))
    = [MoveBlocks.mk ["C"] "A" "" 1].
Proof.
  split; [|split].
  - apply (proj1 (dropItem_commits_pending_placement scenarioState)).
    reflexivity.
  - reflexivity.
  - destruct (proj1 (proj2 (dropItem_commits_pending_placement
                              (publishMove scenarioState (leaf "C") "A" DOWN)))
                (Target.mk "C" "A" "" 1)) as (_ & _ & ->).
    + vm_compute; reflexivity.
    + reflexivity.
Defined.

(** ** Row numbering and expansion state *)

Lemma countBlocks_unfold es b :
  countBlocks es b =
  if isExpandedIn es (clientId b)
  then 1 + fold_left (countReducer es) (innerBlocks b) 0
  else 1.
Proof. by destruct b. Qed.

Lemma countBlocks_leaf es b : innerBlocks b = [] -> countBlocks es b = 1.
Proof.
  intros Hleaf. rewrite countBlocks_unfold, Hleaf. simpl. by case_match.
Qed.

Lemma countBlocks_collapsed es b :
  es !! clientId b = Some false -> countBlocks es b = 1.
Proof.
  intros Hc. rewrite countBlocks_unfold. unfold isExpandedIn. by rewrite Hc.
Qed.

Lemma countReducer_leaf es count b :
  innerBlocks b = [] -> countReducer es count b = count + 1.
Proof.
  intros Hleaf. unfold countReducer, countReducerWith. rewrite Hleaf. simpl.
  by rewrite andb_false_r.
Qed.

(** The numbering of a branch only depends on the row counts of its
    blocks. *)
Lemma branchPositions_same_counts es blocks blocks' :
  Forall2 (fun x y => countBlocks es x = countBlocks es y) blocks blocks' ->
  forall previous previous' nextPosition,
    (countBlocks es <$> previous) = (countBlocks es <$> previous') ->
    branchPositions es previous blocks nextPosition
    = branchPositions es previous' blocks' nextPosition.
Proof.
  induction 1 as [|x y l l' Hxy _ IH]; intros previous previous' n Hprev;
    [done|].
  simpl.
  assert (Hn : match previous with
               | Some prev => n + countBlocks es prev
               | None => n
               end
               = match previous' with
                 | Some prev => n + countBlocks es prev
                 | None => n
                 end).
  { destruct previous, previous'; simpl in Hprev; simplify_eq; congruence. }
  rewrite Hn. f_equal. apply IH. simpl. by rewrite Hxy.
Qed.

(** The row after [b] is numbered [countBlocks b] above [b]'s row. *)
Lemma branchPositions_next es before b next after :
  forall previous nextPosition row,
    branchPositions es previous (before ++ b :: next :: after) nextPosition
      !! length before = Some row ->
    branchPositions es previous (before ++ b :: next :: after) nextPosition
      !! S (length before) = Some (row + countBlocks es b).
Proof.
  induction before as [|x before IH]; intros previous n row.
  - simpl. intros [= <-]. done.
  - simpl. apply IH.
Qed.

(** C8. A block whose identity maps to collapsed counts as exactly one row,
    whatever its descendants, in [countBlocks] and in [countReducer].  So
    within a branch the row after a collapsed block is numbered one above
    it, every row of the branch gets the number it would get if the
    collapsed block were a single leaf, and so does the row count of a
    parent that contains the collapsed block. *)
Theorem collapsed_branch_counts_one (expandedState : gmap string bool)
    (b : Block) :
  expandedState !! clientId b = Some false ->
  countBlocks expandedState b = 1 /\
  (forall count, countReducer expandedState count b = count + 1) /\
  (forall before next after listPosition row,
      listPositions expandedState (before ++ b :: next :: after) listPosition
        !! length before = Some row ->
      listPositions expandedState (before ++ b :: next :: after) listPosition
        !! S (length before) = Some (row + 1)) /\
  (forall before after listPosition single,
      innerBlocks single = [] ->
      listPositions expandedState (before ++ b :: after) listPosition
      = listPositions expandedState (before ++ single :: after) listPosition) /\
  (forall parent before after single,
      innerBlocks single = [] ->
      countBlocks expandedState (mkBlock parent (before ++ b :: after))
      = countBlocks expandedState (mkBlock parent (before ++ single :: after))).
Proof.
  intros Hc. pose proof (countBlocks_collapsed _ _ Hc) as Hone.
  assert (Hred : forall count, countReducer expandedState count b = count + 1).
  { intros count. unfold countReducer, countReducerWith, isExpandedIn.
    by rewrite Hc. }
  split; [done|]. split; [done|]. split; [|split]; cycle 2.
  - intros parent before after single Hsingle.
    rewrite !countBlocks_unfold. simpl. case_match; [|done]. f_equal.
    rewrite !fold_left_app. simpl. by rewrite Hred, countReducer_leaf.
  - intros before next after listPosition row Hrow.
    rewrite <- Hone. by apply branchPositions_next.
  - intros before after listPosition single Hsingle.
    apply branchPositions_same_counts; [|done].
    apply Forall2_app; [by apply Forall_Forall2_diag, Forall_true|].
    constructor; [|by apply Forall_Forall2_diag, Forall_true].
    by rewrite Hone, countBlocks_leaf.
Qed.

Lemma collapsed_branch_counts_one_witness :
  countBlocks collapsedP threeNodeBranch = 1 /\
  countBlocks ∅ threeNodeBranch = 3 /\
  listPositions collapsedP [leaf "M"; threeNodeBranch; leaf "N"] 0
    = listPositions collapsedP [leaf "M"; leaf "P"; leaf "N"] 0 /\
  listPositions collapsedP [leaf "M"; threeNodeBranch; leaf "N"] 0 = [0; 1; 2].
Proof.
  assert (Hc : collapsedP !! clientId threeNodeBranch = Some false)
    by (vm_compute; reflexivity).
  destruct (collapsed_branch_counts_one collapsedP threeNodeBranch Hc)
    as (Hone & _ & _ & Hleaf & _).
  split; [exact Hone|]. split; [vm_compute; reflexivity|].
  split; [|vm_compute; reflexivity].
  exact (Hleaf [leaf "M"] [leaf "N"] 0 (leaf "P") eq_refl).
Defined.





(** * Further properties of the list view code *)

(** ** [findCurrentPosition] *)

Lemma findCurrentPositionInner_unfold id c inner :
  findCurrentPositionInner id (mkBlock c inner)
  = findCurrentPosition inner id c.
Proof. done. Qed.

Lemma findLoop_cons id p whole c inner rest i :
  findLoop (findCurrentPositionInner id) id p whole (mkBlock c inner :: rest) i
  = if bool_decide (c = id) then Some (Found.mk p i (mkBlock c inner) whole)
    else match findCurrentPosition inner id c with
         | Some found => Some found
         | None =>
             findLoop (findCurrentPositionInner id) id p whole rest (i + 1)
         end.
Proof.
  cbn [findLoop clientId innerBlocks]. case_bool_decide; [done|].
  destruct (0 <? Z.of_nat (length inner)) eqn:Hlen.
  - by rewrite findCurrentPositionInner_unfold.
  - apply (no_inner_nil (mkBlock c inner)) in Hlen. simpl in Hlen.
    by subst inner.
Qed.

Lemma findLoop_None id rest :
  forall p whole i,
    findLoop (findCurrentPositionInner id) id p whole rest i = None
    <-> id ∉ ids rest.
Proof.
  induction rest as [|c inner rest IHinner IHrest] using forest_ind;
    intros p whole i.
  - simpl. split; [intros _; apply not_elem_of_nil | done].
  - rewrite findLoop_cons, ids_cons, idsOf_mk.
    rewrite not_elem_of_app, not_elem_of_cons.
    case_bool_decide as Hc.
    + split; [discriminate | intros [[Hne _] _]; done].
    + unfold findCurrentPosition in *.
      destruct (findLoop (findCurrentPositionInner id) id c inner inner 0)
        as [found|] eqn:Hinner.
      * split; [discriminate|]. intros [[_ Hnot] _].
        apply (IHinner c inner 0) in Hnot. congruence.
      * apply (IHinner c inner 0) in Hinner. rewrite IHrest.
        split; [intros Hrest; repeat split; (done || by intros ->) |].
        by intros [_ Hrest].
Qed.

Lemma findCurrentPosition_None tree id p :
  findCurrentPosition tree id p = None <-> id ∉ ids tree.
Proof. apply findLoop_None. Qed.

(** X1. [findCurrentPosition] returns [false] exactly when no node of the
    tree, at any depth, carries the identity. *)
Theorem findCurrentPosition_false_iff_absent (tree : list Block)
    (id parentId : string) :
  findCurrentPosition tree id parentId = None <-> id ∉ ids tree.
Proof. apply findLoop_None. Qed.

Lemma findLoop_Some id rest :
  forall p pre i found,
    i = Z.of_nat (length pre) ->
    findLoop (findCurrentPositionInner id) id p (pre ++ rest) rest i
      = Some found ->
    locates (pre ++ rest) p id found.
Proof.
  induction rest as [|c inner rest IHinner IHrest] using forest_ind;
    intros p pre i found Hi; [done|].
  rewrite findLoop_cons. case_bool_decide as Hc.
  - intros [= <-]. unfold locates. simpl. split; [done|]. split; [lia|].
    split; [|split].
    + subst i. rewrite Nat2Z.id. by rewrite list_lookup_middle.
    + unfold nodes. rewrite bind_app, bind_cons. apply elem_of_app. right.
      apply elem_of_app. left. rewrite nodesOf_mk. apply elem_of_cons.
      by left.
    + by left.
  - unfold findCurrentPosition.
    destruct (findLoop (findCurrentPositionInner id) id c inner inner 0)
      as [found'|] eqn:Hinner.
    + intros [= <-].
      destruct (IHinner c [] 0 found' eq_refl Hinner)
        as (Hid & Hpos & Hlook & Hnode & Hparent).
      simpl in *.
      assert (Hsub : forall x, x ∈ nodes inner ->
                x ∈ nodes (pre ++ mkBlock c inner :: rest)).
      { intros x Hx. unfold nodes. rewrite bind_app, bind_cons.
        apply elem_of_app. right. apply elem_of_app. left.
        rewrite nodesOf_mk. apply elem_of_cons. by right. }
      split; [done|]. split; [done|]. split; [done|]. split; [by apply Hsub|].
      right. destruct Hparent as [[Hp Ht] | (parent & Hin & Hp & Ht)].
      * exists (mkBlock c inner). split; [|done].
        unfold nodes. rewrite bind_app, bind_cons.
        apply elem_of_app. right. apply elem_of_app. left.
        rewrite nodesOf_mk. apply elem_of_cons. by left.
      * exists parent. split; [by apply Hsub | done].
    + intros Hrest.
      specialize (IHrest p (pre ++ [mkBlock c inner]) (i + 1) found).
      rewrite <- app_assoc in IHrest. simpl in IHrest. apply IHrest; [|done].
      rewrite length_app. simpl. lia.
Qed.

Lemma findCurrentPosition_locates tree id p found :
  findCurrentPosition tree id p = Some found -> locates tree p id found.
Proof. intros Hfound. exact (findLoop_Some id tree p [] 0 found eq_refl Hfound). Qed.

(** X2. A match of [findCurrentPosition] is sound: the returned block
    carries the identity and is a node of the tree, it is the element at
    the returned index of the returned array, and that array is the tree
    itself with the [parentId] argument as parent, or the [innerBlocks] of
    the node whose identity is returned as parent. *)
Theorem findCurrentPosition_sound (tree : list Block) (id parentId : string)
    (found : Found.t) :
  findCurrentPosition tree id parentId = Some found ->
  clientId (Found.block found) = id /\
  (0 <= Found.index found)%Z /\
  Found.tree found !! Z.to_nat (Found.index found)
    = Some (Found.block found) /\
  Found.block found ∈ nodes tree /\
  ((Found.parentId found = parentId /\ Found.tree found = tree) \/
   exists parent,
     parent ∈ nodes tree /\
     Found.parentId found = clientId parent /\
     Found.tree found = innerBlocks parent).
Proof.
  intros Hfound. exact (findLoop_Some id tree parentId [] 0 found eq_refl Hfound).
Qed.

Lemma findCurrentPosition_sound_witness :
  findCurrentPosition scenarioTree "C" ""
    = Some (Found.mk "A" 1 (leaf "C") [leaf "B"; leaf "C"]) /\
  [leaf "B"; leaf "C"] !! Z.to_nat 1 = Some (leaf "C").
Proof.
  assert (Hfound : findCurrentPosition scenarioTree "C" ""
                   = Some (Found.mk "A" 1 (leaf "C") [leaf "B"; leaf "C"]))
    by (vm_compute; reflexivity).
  split; [exact Hfound|].
  exact (proj1 (proj2 (proj2 (findCurrentPosition_sound scenarioTree "C" ""
                                _ Hfound)))).
Defined.

(** ** The two variants of the tree functions *)

Lemma Delta_removeLoop_prune rec id tree :
  Forall (fun b => rec b = prune id (innerBlocks b)) tree ->
  forall acc, Delta.removeLoop rec id tree acc = acc ++ prune id tree.
Proof.
  induction 1 as [|b rest Hb _ IH]; intros acc.
  - simpl. by rewrite app_nil_r.
  - rewrite prune_cons. destruct b as [c inner]. rewrite pruneOf_mk.
    cbn [Delta.removeLoop clientId innerBlocks] in *.
    destruct (decide (c = id)) as [Hc|Hc].
    + rewrite (bool_decide_eq_false_2 (c ≠ id)) by (intros Hx; by apply Hx).
      rewrite (bool_decide_eq_true_2 (c = id)) by done. by rewrite IH.
    + rewrite (bool_decide_eq_true_2 (c ≠ id)) by done.
      rewrite (bool_decide_eq_false_2 (c = id)) by done.
      destruct (0 <? Z.of_nat (length inner)) eqn:Hlen.
      * rewrite IH, Hb. unfold withInnerBlocks. simpl.
        by rewrite <- app_assoc.
      * rewrite IH. apply (no_inner_nil (mkBlock c inner)) in Hlen.
        simpl in Hlen. subst inner. unfold spread. simpl.
        by rewrite <- app_assoc.
Qed.

Lemma Delta_removeItemFromTree_prune tree id :
  Delta.removeItemFromTree tree id = prune id tree.
Proof.
  unfold Delta.removeItemFromTree.
  rewrite Delta_removeLoop_prune; [done|].
  apply Forall_forall. intros b _.
  induction b as [c inner IH] using Block_nested_ind. simpl.
  by rewrite Delta_removeLoop_prune.
Qed.

Lemma Delta_addLoop_graft rec id item after tree :
  Forall (fun b => rec b = graft id item after (innerBlocks b)) tree ->
  forall acc,
    Delta.addLoop rec id item after tree acc = acc ++ graft id item after tree.
Proof.
  induction 1 as [|b rest Hb _ IH]; intros acc.
  - simpl. by rewrite app_nil_r.
  - rewrite graft_cons. destruct b as [c inner]. rewrite graftOf_mk.
    cbn [Delta.addLoop clientId innerBlocks] in *.
    case_bool_decide as Hc.
    + destruct after; rewrite IH, !spread_id; by rewrite <- app_assoc.
    + destruct (0 <? Z.of_nat (length inner)) eqn:Hlen.
      * rewrite IH, Hb. unfold withInnerBlocks. simpl.
        by rewrite <- app_assoc.
      * rewrite IH. apply (no_inner_nil (mkBlock c inner)) in Hlen.
        simpl in Hlen. subst inner. unfold spread. simpl.
        by rewrite <- app_assoc.
Qed.

Lemma Delta_addItemToTree_graft tree id item after :
  Delta.addItemToTree tree id item after = graft id item after tree.
Proof.
  unfold Delta.addItemToTree.
  rewrite Delta_addLoop_graft; [done|].
  apply Forall_forall. intros b _.
  induction b as [c inner IH] using Block_nested_ind. simpl.
  by rewrite Delta_addLoop_graft.
Qed.

(** X3. The two [removeItemFromTree] of index.js build the same tree: the
    one that also reports the former parent returns, as [newTree], what the
    plain one returns, for every tree, identity and [parentId]. *)
Theorem removeItemFromTree_variants_agree (tree : list Block)
    (id parentId : string) :
  Removed.newTree (removeItemFromTree tree id parentId)
  = Delta.removeItemFromTree tree id.
Proof.
  by rewrite removeItemFromTree_newTree, Delta_removeItemFromTree_prune.
Qed.

(** X4. The two [addItemToTree] of index.js build the same tree, for every
    tree, target, item, side and [parentId]. *)
Theorem addItemToTree_variants_agree (tree : list Block) (id : string)
    (item : Block) (insertAfter : bool) (parentId : string) :
  Added.newTree (addItemToTree tree id item insertAfter parentId)
  = Delta.addItemToTree tree id item insertAfter.
Proof.
  by rewrite addItemToTree_newTree, Delta_addItemToTree_graft.
Qed.

(** ** What [removeItemFromTree] and [addItemToTree] report *)

Lemma removeItemFromTree_nil id p : removeItemFromTree [] id p = Removed.mk [] "".
Proof. done. Qed.

Lemma removeLoop_cons id p c inner rest acc rp :
  removeLoop (removeItemFromInner id) id p (mkBlock c inner :: rest) acc rp
  = if bool_decide (c = id) then
      removeLoop (removeItemFromInner id) id p rest acc p
    else
      let res := removeItemFromTree inner id c in
      removeLoop (removeItemFromInner id) id p rest
        (acc ++ [mkBlock c (Removed.newTree res)])
        (if bool_decide (Removed.removeParentId res ≠ "")
         then Removed.removeParentId res else rp).
Proof.
  cbn [removeLoop clientId innerBlocks].
  destruct (decide (c = id)) as [Hc|Hc].
  - rewrite (bool_decide_eq_false_2 (c ≠ id)) by (intros Hx; by apply Hx).
    by rewrite (bool_decide_eq_true_2 (c = id)).
  - rewrite (bool_decide_eq_true_2 (c ≠ id)) by done.
    rewrite (bool_decide_eq_false_2 (c = id)) by done.
    destruct (0 <? Z.of_nat (length inner)) eqn:Hlen.
    + by rewrite removeItemFromInner_unfold.
    + apply (no_inner_nil (mkBlock c inner)) in Hlen. simpl in Hlen.
      subst inner. by rewrite removeItemFromTree_nil.
Qed.

Lemma removeLoop_parent_kept id p rest :
  id ∉ ids rest ->
  forall acc rp,
    Removed.removeParentId
      (removeLoop (removeItemFromInner id) id p rest acc rp) = rp.
Proof.
  induction rest as [|c inner rest IHinner IHrest] using forest_ind;
    intros Hnot acc rp; [done|].
  rewrite ids_cons, idsOf_mk in Hnot.
  apply not_elem_of_app in Hnot as [Hnot Hrest].
  apply not_elem_of_cons in Hnot as [Hc Hinner].
  rewrite removeLoop_cons, bool_decide_eq_false_2 by done. simpl.
  rewrite IHrest by done.
  rewrite removeItemFromTree_parent_absent by done.
  by rewrite bool_decide_eq_false_2 by (intros Hx; by apply Hx).
Qed.

Lemma removeLoop_parent_found id rest :
  forall p whole i acc found,
    NoDup (ids rest) ->
    findLoop (findCurrentPositionInner id) id p whole rest i = Some found ->
    Removed.removeParentId
      (removeLoop (removeItemFromInner id) id p rest acc "")
    = Found.parentId found.
Proof.
  induction rest as [|c inner rest IHinner IHrest] using forest_ind;
    intros p whole i acc found Hnd; [done|].
  rewrite ids_cons, idsOf_mk in Hnd. simpl in Hnd.
  apply NoDup_cons in Hnd as [Hc Hnd].
  apply NoDup_app in Hnd as (Hinner & Hdisj & Hrest).
  rewrite findLoop_cons, removeLoop_cons.
  case_bool_decide as Heq.
  - intros [= <-]. simpl. subst c. apply removeLoop_parent_kept.
    intros Hin. apply Hc. apply elem_of_app. by right.
  - destruct (findCurrentPosition inner id c) as [found'|] eqn:Hfind.
    + intros [= <-]. simpl.
      assert (Hin : id ∈ ids inner).
      { destruct (decide (id ∈ ids inner)) as [|Hnot]; [done|].
        apply findCurrentPosition_None with (p := c) in Hnot.
        congruence. }
      rewrite removeLoop_parent_kept by by apply Hdisj.
      unfold removeItemFromTree.
      rewrite (IHinner c inner 0 [] found' Hinner Hfind).
      by case_bool_decide.
    + intros Hfound. simpl.
      apply findCurrentPosition_None in Hfind.
      rewrite removeItemFromTree_parent_absent by done.
      rewrite bool_decide_eq_false_2 by (intros Hx; by apply Hx).
      by apply (IHrest p whole (i + 1)).
Qed.

(** X5. In a tree with pairwise distinct identities, the [removeParentId]
    that [removeItemFromTree] reports for an identity of the tree is the
    parent [findCurrentPosition] finds for it: the identity of the node
    whose [innerBlocks] held the removed node, or the [parentId] argument
    for a root-level node. *)
Theorem removeItemFromTree_reports_parent (tree : list Block)
    (id parentId : string) (found : Found.t) :
  NoDup (ids tree) ->
  findCurrentPosition tree id parentId = Some found ->
  Removed.removeParentId (removeItemFromTree tree id parentId)
  = Found.parentId found.
Proof.
  intros Hnd Hfound.
  exact (removeLoop_parent_found id tree parentId tree 0 [] found Hnd Hfound).
Qed.

Lemma removeItemFromTree_reports_parent_witness :
  NoDup (ids scenarioTree) /\
  findCurrentPosition scenarioTree "C" ""
    = Some (Found.mk "A" 1 (leaf "C") [leaf "B"; leaf "C"]) /\
  Removed.removeParentId (removeItemFromTree scenarioTree "C" "") = "A".
Proof.
  assert (Hnd : NoDup (ids scenarioTree)) by by_computation.
  assert (Hfound : findCurrentPosition scenarioTree "C" ""
                   = Some (Found.mk "A" 1 (leaf "C") [leaf "B"; leaf "C"]))
    by (vm_compute; reflexivity).
  split; [exact Hnd|]. split; [exact Hfound|].
  exact (removeItemFromTree_reports_parent scenarioTree "C" "" _ Hnd Hfound).
Defined.

Lemma addItemToTree_nil id item after p :
  addItemToTree [] id item after p = Added.mk [] "" (-1).
Proof. done. Qed.

Lemma addLoop_cons id item after p c inner rest acc ti tid :
  (-1 <= ti)%Z ->
  addLoop (addItemToInner id item after) id item after p
    (mkBlock c inner :: rest) acc ti tid
  = if bool_decide (c = id) then
      if after then
        addLoop (addItemToInner id item after) id item after p rest
          (acc ++ [mkBlock c inner; item]) (Z.of_nat (length acc) + 1) p
      else
        addLoop (addItemToInner id item after) id item after p rest
          (acc ++ [item; mkBlock c inner]) (Z.of_nat (length acc)) p
    else
      let res := addItemToTree inner id item after c in
      addLoop (addItemToInner id item after) id item after p rest
        (acc ++ [mkBlock c (Added.newTree res)])
        (Z.max ti (Added.targetIndex res))
        (if bool_decide (Added.targetId res ≠ "")
         then Added.targetId res else tid).
Proof.
  intros Hti. cbn [addLoop clientId innerBlocks].
  case_bool_decide as Hc.
  - by rewrite !spread_id.
  - destruct (0 <? Z.of_nat (length inner)) eqn:Hlen.
    + by rewrite addItemToInner_unfold.
    + apply (no_inner_nil (mkBlock c inner)) in Hlen. simpl in Hlen.
      subst inner. rewrite addItemToTree_nil.
      cbn [Added.newTree Added.targetId Added.targetIndex].
      rewrite (bool_decide_eq_false_2 ("" ≠ "")) by (intros Hx; by apply Hx).
      by rewrite Z.max_l by done.
Qed.

Lemma addLoop_report_kept id item after rest :
  id ∉ ids rest ->
  forall p acc ti tid,
    (-1 <= ti)%Z ->
    let res :=
      addLoop (addItemToInner id item after) id item after p rest acc ti tid in
    Added.targetIndex res = ti /\ Added.targetId res = tid.
Proof.
  induction rest as [|c inner rest IHinner IHrest] using forest_ind;
    intros Hnot p acc ti tid Hti; [done|].
  rewrite ids_cons, idsOf_mk in Hnot.
  apply not_elem_of_app in Hnot as [Hnot Hrest].
  apply not_elem_of_cons in Hnot as [Hc Hinner].
  cbv zeta. rewrite addLoop_cons, bool_decide_eq_false_2 by done. cbv zeta.
  destruct (IHinner Hinner c [] (-1) "" ltac:(done)) as [Hix Hid].
  unfold addItemToTree. rewrite Hix, Hid.
  rewrite bool_decide_eq_false_2 by (intros Hx; by apply Hx).
  rewrite Z.max_l by done. by apply IHrest.
Qed.

Lemma addItemToTree_absent tree id item insertAfter parentId :
  id ∉ ids tree ->
  addItemToTree tree id item insertAfter parentId = Added.mk tree "" (-1).
Proof.
  intros Hnot.
  pose proof (addItemToTree_newTree tree id item insertAfter parentId) as Htree.
  rewrite (graft_absent id item insertAfter tree Hnot) in Htree.
  destruct (addLoop_report_kept id item insertAfter tree Hnot parentId [] (-1) ""
              ltac:(done)) as [Hix Hid].
  fold (addItemToTree tree id item insertAfter parentId) in Hix, Hid.
  destruct (addItemToTree tree id item insertAfter parentId) as [t tid ti].
  simpl in *. by subst.
Qed.

(** X7. When no node of the tree carries the target identity,
    [addItemToTree] returns the tree as it was, an empty [targetId] and
    [targetIndex] -1: the item is not added anywhere. *)
Theorem addItemToTree_absent_target (tree : list Block) (id : string)
    (item : Block) (insertAfter : bool) (parentId : string) :
  id ∉ ids tree ->
  addItemToTree tree id item insertAfter parentId = Added.mk tree "" (-1).
Proof. apply addItemToTree_absent. Qed.

Lemma addItemToTree_absent_target_witness :
  ("Z" ∉ ids scenarioTree) /\
  addItemToTree scenarioTree "Z" (leaf "N") true ""
    = Added.mk scenarioTree "" (-1).
Proof.
  split; [by_computation|].
  apply (addItemToTree_absent_target scenarioTree "Z" (leaf "N") true "").
  by_computation.
Defined.

Lemma addLoop_report_found id item after rest :
  forall p whole i acc found,
    NoDup (ids rest) ->
    i = Z.of_nat (length acc) ->
    findLoop (findCurrentPositionInner id) id p whole rest i = Some found ->
    let res :=
      addLoop (addItemToInner id item after) id item after p rest acc (-1) ""
    in
    Added.targetId res = Found.parentId found /\
    Added.targetIndex res
    = (Found.index found + if after then 1 else 0)%Z.
Proof.
  induction rest as [|c inner rest IHinner IHrest] using forest_ind;
    intros p whole i acc found Hnd Hi; [done|].
  rewrite ids_cons, idsOf_mk in Hnd. simpl in Hnd.
  apply NoDup_cons in Hnd as [Hc Hnd].
  apply NoDup_app in Hnd as (Hinner & Hdisj & Hrest).
  cbv zeta. rewrite findLoop_cons, addLoop_cons by done.
  case_bool_decide as Heq.
  - intros [= <-]. simpl. subst c i.
    assert (Hnot : id ∉ ids rest).
    { intros Hin. apply Hc. apply elem_of_app. by right. }
    destruct after.
    + destruct (addLoop_report_kept id item true rest Hnot p
                  (acc ++ [mkBlock id inner; item])
                  (Z.of_nat (length acc) + 1) p ltac:(lia)) as [-> ->].
      done.
    + destruct (addLoop_report_kept id item false rest Hnot p
                  (acc ++ [item; mkBlock id inner])
                  (Z.of_nat (length acc)) p ltac:(lia)) as [-> ->].
      split; [done | lia].
  - destruct (findCurrentPosition inner id c) as [found'|] eqn:Hfind.
    + intros [= <-]. cbv zeta.
      assert (Hin : id ∈ ids inner).
      { destruct (decide (id ∈ ids inner)) as [|Hnot]; [done|].
        apply findCurrentPosition_None with (p := c) in Hnot.
        congruence. }
      destruct (IHinner c inner 0 [] found' Hinner eq_refl Hfind)
        as [Hid Hix].
      pose proof (findCurrentPosition_locates _ _ _ _ Hfind)
        as (_ & Hpos & _).
      unfold addItemToTree. rewrite Hid, Hix.
      assert (Hge : (-1 <= Found.index found' + (if after then 1 else 0))%Z)
        by (destruct after; lia).
      destruct (addLoop_report_kept id item after rest (Hdisj _ Hin) p
                  (acc ++ [mkBlock c
                     (Added.newTree
                        (addLoop (addItemToInner id item after) id item after
                           c inner [] (-1) ""))])
                  (Z.max (-1) (Found.index found' + if after then 1 else 0))
                  (if bool_decide (Found.parentId found' ≠ "")
                   then Found.parentId found' else "")
                  ltac:(lia)) as [-> ->].
      split; [by case_bool_decide | lia].
    + intros Hfound. cbv zeta.
      apply findCurrentPosition_None in Hfind.
      rewrite (addItemToTree_absent inner id item after c Hfind).
      cbn [Added.newTree Added.targetId Added.targetIndex].
      rewrite (bool_decide_eq_false_2 ("" ≠ "")) by (intros Hx; by apply Hx).
      rewrite Z.max_l by done.
      apply (IHrest p whole (i + 1)); [done | | done].
      rewrite length_app. simpl. lia.
Qed.

(** X6. In a tree with pairwise distinct identities, the [targetId] that
    [addItemToTree] reports is the parent [findCurrentPosition] finds for
    the target, and the [targetIndex] is the target's index among its
    siblings when inserting before it and that index plus one when
    inserting after it. *)
Theorem addItemToTree_reports_position (tree : list Block) (id : string)
    (item : Block) (insertAfter : bool) (parentId : string)
    (found : Found.t) :
  NoDup (ids tree) ->
  findCurrentPosition tree id parentId = Some found ->
  let res := addItemToTree tree id item insertAfter parentId in
  Added.targetId res = Found.parentId found /\
  Added.targetIndex res
  = (Found.index found + if insertAfter then 1 else 0)%Z.
Proof.
  intros Hnd Hfound.
  exact (addLoop_report_found id item insertAfter tree parentId tree 0 []
           found Hnd eq_refl Hfound).
Qed.

Lemma addItemToTree_reports_position_witness :
  NoDup (ids scenarioTree) /\
  findCurrentPosition scenarioTree "B" ""
    = Some (Found.mk "A" 0 (leaf "B") [leaf "B"; leaf "C"]) /\
  Added.targetId (addItemToTree scenarioTree "B" (leaf "N") true "") = "A" /\
  Added.targetIndex (addItemToTree scenarioTree "B" (leaf "N") true "") = 1.
Proof.
  assert (Hnd : NoDup (ids scenarioTree)) by by_computation.
  assert (Hfound : findCurrentPosition scenarioTree "B" ""
                   = Some (Found.mk "A" 0 (leaf "B") [leaf "B"; leaf "C"]))
    by (vm_compute; reflexivity).
  split; [exact Hnd|]. split; [exact Hfound|].
  exact (addItemToTree_reports_position scenarioTree "B" (leaf "N") true ""
           _ Hnd Hfound).
Defined.

Lemma findLoop_head id p whole b rest i :
  clientId b = id ->
  findLoop (findCurrentPositionInner id) id p whole (b :: rest) i
  = Some (Found.mk p i b whole).
Proof.
  intros Hb. destruct b as [c inner]. rewrite findLoop_cons.
  by rewrite bool_decide_eq_true_2.
Qed.

Lemma findLoop_skip id p whole b rest i :
  id ∉ idsOf b ->
  findLoop (findCurrentPositionInner id) id p whole (b :: rest) i
  = findLoop (findCurrentPositionInner id) id p whole rest (i + 1).
Proof.
  intros Hb. destruct b as [c inner]. rewrite findLoop_cons.
  rewrite idsOf_mk in Hb. apply not_elem_of_cons in Hb as [Hc Hinner].
  rewrite bool_decide_eq_false_2 by done.
  apply findCurrentPosition_None with (p := c) in Hinner. by rewrite Hinner.
Qed.

(** Searching the grown tree for the added item's identity finds the item
    next to where the target was found. *)
Lemma graft_locates_item id item after rest :
  clientId item ∉ ids rest ->
  forall p whole whole' i found,
    NoDup (ids rest) ->
    findLoop (findCurrentPositionInner id) id p whole rest i = Some found ->
    exists siblings,
      findLoop (findCurrentPositionInner (clientId item)) (clientId item) p
        whole' (graft id item after rest) i
      = Some (Found.mk (Found.parentId found)
                (Found.index found + if after then 1 else 0)
                item siblings).
Proof.
  induction rest as [|c inner rest IHinner IHrest] using forest_ind;
    intros Hfresh p whole whole' i found Hnd; [done|].
  rewrite ids_cons, idsOf_mk in Hnd, Hfresh. simpl in Hnd.
  apply NoDup_cons in Hnd as [Hc Hnd].
  apply NoDup_app in Hnd as (Hinner & Hdisj & Hrest).
  apply not_elem_of_app in Hfresh as [Hfresh Hfresh_rest].
  apply not_elem_of_cons in Hfresh as [Hfresh_c Hfresh_inner].
  rewrite findLoop_cons, graft_cons, graftOf_mk.
  case_bool_decide as Heq.
  - intros [= <-]. cbn [Found.parentId Found.index]. eexists.
    destruct after; cbn [app].
    + rewrite findLoop_skip.
      * by rewrite findLoop_head.
      * rewrite idsOf_mk. apply not_elem_of_cons. done.
    + rewrite findLoop_head by done. f_equal. f_equal. lia.
  - destruct (findCurrentPosition inner id c) as [found'|] eqn:Hfind.
    + intros [= <-].
      destruct (IHinner Hfresh_inner c inner (graft id item after inner) 0
                  found' Hinner Hfind) as [siblings Hsome].
      exists siblings. cbn [app]. rewrite findLoop_cons.
      rewrite bool_decide_eq_false_2 by (intros Hx; by apply Hfresh_c).
      unfold findCurrentPosition. by rewrite Hsome.
    + intros Hfound.
      apply findCurrentPosition_None in Hfind.
      rewrite (graft_absent id item after inner Hfind). cbn [app].
      rewrite findLoop_skip.
      * by apply (IHrest Hfresh_rest p whole whole' (i + 1) found Hrest).
      * rewrite idsOf_mk. apply not_elem_of_cons. done.
Qed.

Lemma addItemToTree_locates_item tree id item after p :
  NoDup (ids tree) -> id ∈ ids tree -> clientId item ∉ ids tree ->
  let res := addItemToTree tree id item after p in
  exists siblings,
    findCurrentPosition (Added.newTree res) (clientId item) p
    = Some (Found.mk (Added.targetId res) (Added.targetIndex res)
              item siblings).
Proof.
  intros Hnd Hin Hfresh res.
  destruct (findCurrentPosition tree id p) as [found|] eqn:Hfound.
  - destruct (addLoop_report_found id item after tree p tree 0 [] found
                Hnd eq_refl Hfound) as [Hid Hix].
    subst res. unfold addItemToTree at 2 3. rewrite Hid, Hix.
    rewrite addItemToTree_newTree.
    exact (graft_locates_item id item after tree Hfresh p tree
             (graft id item after tree) 0 found Hnd Hfound).
  - apply findCurrentPosition_None in Hfound. done.
Qed.

(** X8. In a tree with pairwise distinct identities, after adding an item
    whose identity is new to the tree next to a target of the tree,
    [findCurrentPosition] finds the item in the new tree under the parent
    [targetId] at index [targetIndex]: the reported placement is where the
    item is. *)
Theorem addItemToTree_item_at_reported_position (tree : list Block)
    (id : string) (item : Block) (insertAfter : bool) (parentId : string) :
  NoDup (ids tree) -> id ∈ ids tree -> clientId item ∉ ids tree ->
  let res := addItemToTree tree id item insertAfter parentId in
  exists found,
    findCurrentPosition (Added.newTree res) (clientId item) parentId
      = Some found /\
    Found.block found = item /\
    Found.parentId found = Added.targetId res /\
    Found.index found = Added.targetIndex res /\
    Found.tree found !! Z.to_nat (Added.targetIndex res) = Some item.
Proof.
  intros Hnd Hin Hfresh res.
  destruct (addItemToTree_locates_item tree id item insertAfter parentId
              Hnd Hin Hfresh) as [siblings Hsome].
  fold res in Hsome. eexists. split; [exact Hsome|]. simpl.
  split; [done|]. split; [done|]. split; [done|].
  by pose proof (findCurrentPosition_locates _ _ _ _ Hsome)
    as (_ & _ & Hlook & _).
Qed.

Lemma addItemToTree_item_at_reported_position_witness :
  exists found,
    findCurrentPosition
      (Added.newTree (addItemToTree scenarioTree "C" (leaf "N") false ""))
      "N" "" = Some found /\
    Found.block found = leaf "N" /\
    Found.parentId found = "A" /\
    Found.index found = 1.
Proof.
  destruct (addItemToTree_item_at_reported_position scenarioTree "C"
              (leaf "N") false "")
    as (found & Hfound & Hblock & Hparent & Hindex & _).
  - by_computation.
  - by_computation.
  - by_computation.
  - exists found. split; [exact Hfound|]. split; [exact Hblock|].
    split; [exact Hparent | exact Hindex].
Defined.

Lemma prune_app id t1 t2 : prune id (t1 ++ t2) = prune id t1 ++ prune id t2.
Proof. apply bind_app. Qed.

Lemma graft_app id item after t1 t2 :
  graft id item after (t1 ++ t2)
  = graft id item after t1 ++ graft id item after t2.
Proof. apply bind_app. Qed.

Lemma prune_graft_fresh id item after tree :
  clientId item ∉ ids tree ->
  prune (clientId item) (graft id item after tree) = tree.
Proof.
  induction tree as [|c inner rest IHinner IHrest] using forest_ind;
    intros Hfresh; [done|].
  rewrite ids_cons, idsOf_mk in Hfresh.
  apply not_elem_of_app in Hfresh as [Hfresh Hfresh_rest].
  apply not_elem_of_cons in Hfresh as [Hfresh_c Hfresh_inner].
  rewrite graft_cons, graftOf_mk, prune_app, IHrest by done.
  assert (Hitem : pruneOf (clientId item) item = []).
  { destruct item as [ci ii]. rewrite pruneOf_mk.
    by rewrite bool_decide_eq_true_2. }
  assert (Hkeep : pruneOf (clientId item) (mkBlock c inner)
                  = [mkBlock c inner]).
  { rewrite pruneOf_mk, bool_decide_eq_false_2 by (intros Hx; by apply Hfresh_c).
    by rewrite prune_absent. }
  case_bool_decide as Heq.
  - destruct after; rewrite !prune_cons, Hitem, Hkeep; done.
  - rewrite prune_cons, pruneOf_mk.
    rewrite bool_decide_eq_false_2 by (intros Hx; by apply Hfresh_c).
    by rewrite IHinner.
Qed.

(** X9. Adding an item whose identity is new to the tree and then removing
    that identity gives back the tree, wherever the item was added (and
    also when the target was absent and nothing was added). *)
Theorem remove_undoes_add (tree : list Block) (id : string) (item : Block)
    (insertAfter : bool) (parentId parentId' : string) :
  clientId item ∉ ids tree ->
  Removed.newTree
    (removeItemFromTree
       (Added.newTree (addItemToTree tree id item insertAfter parentId))
       (clientId item) parentId')
  = tree.
Proof.
  intros Hfresh. rewrite removeItemFromTree_newTree, addItemToTree_newTree.
  by apply prune_graft_fresh.
Qed.

Lemma remove_undoes_add_witness :
  ("N" ∉ ids scenarioTree) /\
  Removed.newTree
    (removeItemFromTree
       (Added.newTree (addItemToTree scenarioTree "B" (leaf "N") true ""))
       "N" "")
  = scenarioTree.
Proof.
  split; [by_computation|].
  apply (remove_undoes_add scenarioTree "B" (leaf "N") true "" "").
  by_computation.
Defined.

(** X10. Removing an identity a second time changes nothing more: on the
    tree a removal returned, removing the same identity returns that tree
    and the empty parent. *)
Theorem removeItemFromTree_twice (tree : list Block) (id p p' : string) :
  let once := Removed.newTree (removeItemFromTree tree id p) in
  removeItemFromTree once id p' = Removed.mk once "".
Proof.
  simpl. rewrite removeItemFromTree_newTree.
  pose proof (prune_not_in id tree) as Hnot.
  pose proof (removeItemFromTree_newTree (prune id tree) id p') as Htree.
  pose proof (removeItemFromTree_parent_absent (prune id tree) id p' Hnot)
    as Hparent.
  rewrite (prune_absent id _ Hnot) in Htree.
  destruct (removeItemFromTree (prune id tree) id p') as [t r].
  simpl in *. by subst.
Qed.

Lemma prune_comm a b tree : prune a (prune b tree) = prune b (prune a tree).
Proof.
  induction tree as [|c inner rest IHinner IHrest] using forest_ind; [done|].
  rewrite !prune_cons, !pruneOf_mk.
  destruct (decide (c = a)) as [Ha|Ha], (decide (c = b)) as [Hb|Hb];
    rewrite ?(bool_decide_eq_true_2 _ Ha), ?(bool_decide_eq_false_2 _ Ha),
      ?(bool_decide_eq_true_2 _ Hb), ?(bool_decide_eq_false_2 _ Hb);
    cbn [app]; rewrite ?prune_cons, ?pruneOf_mk;
    rewrite ?(bool_decide_eq_true_2 _ Ha), ?(bool_decide_eq_false_2 _ Ha),
      ?(bool_decide_eq_true_2 _ Hb), ?(bool_decide_eq_false_2 _ Hb);
    cbn [app]; by rewrite ?IHinner, ?IHrest.
Qed.

(** X11. Removals commute: removing two identities in either order builds
    the same tree. *)
Theorem removeItemFromTree_commutes (tree : list Block) (a b : string)
    (p1 p2 p3 p4 : string) :
  Removed.newTree
    (removeItemFromTree (Removed.newTree (removeItemFromTree tree b p1)) a p2)
  = Removed.newTree
      (removeItemFromTree (Removed.newTree (removeItemFromTree tree a p3)) b p4).
Proof. rewrite !removeItemFromTree_newTree. apply prune_comm. Qed.

(** ** What a decision of [moveItem] publishes and records *)

#[local] Set Warnings "-clear-no-such-hyp".

Lemma pruneOf_absent id b : id ∉ idsOf b -> pruneOf id b = [b].
Proof.
  destruct b as [c inner]. rewrite idsOf_mk, pruneOf_mk. intros Hnot.
  apply not_elem_of_cons in Hnot as [Hc Hinner].
  rewrite bool_decide_eq_false_2 by (intros Hx; by apply Hc).
  by rewrite prune_absent.
Qed.

Lemma pruneOf_self b : pruneOf (clientId b) b = [].
Proof. destruct b as [c inner]. rewrite pruneOf_mk. by rewrite bool_decide_eq_true_2. Qed.

Lemma graftOf_self item after b :
  graftOf (clientId b) item after b = if after then [b; item] else [item; b].
Proof.
  destruct b as [c inner]. rewrite graftOf_mk. by rewrite bool_decide_eq_true_2.
Qed.

Lemma clientId_in_idsOf b : clientId b ∈ idsOf b.
Proof. destruct b as [c inner]. rewrite idsOf_mk. apply elem_of_cons. by left. Qed.

Lemma exchanged_ids a b T T' :
  exchanged a b T T' -> clientId a ∈ ids T /\ clientId b ∈ ids T.
Proof.
  induction 1 as [l1 l2 | l1 x inner l2 _ [IHa IHb]].
  - rewrite ids_app, !ids_cons.
    pose proof (clientId_in_idsOf a). pose proof (clientId_in_idsOf b).
    split; set_solver.
  - rewrite ids_app, ids_cons. destruct x as [cx kx]. rewrite idsOf_mk.
    simpl in *. split; set_solver.
Qed.

(** Moving [a] behind its next sibling [b], or [b] in front of its previous
    sibling [a], exchanges the two. *)
Lemma graft_prune_exchanges a b T T' :
  exchanged a b T T' ->
  NoDup (ids T) ->
  graft (clientId b) a true (prune (clientId a) T) = T' /\
  graft (clientId a) b false (prune (clientId b) T) = T'.
Proof.
  induction 1 as [l1 l2 | l1 x inner l2 Hex IH]; intros Hnd.
  - rewrite ids_app, !ids_cons in Hnd.
    apply NoDup_app in Hnd as (_ & D1 & Hnd).
    apply NoDup_app in Hnd as (_ & D2 & Hnd).
    apply NoDup_app in Hnd as (_ & D3 & _).
    pose proof (clientId_in_idsOf a) as Ha.
    pose proof (clientId_in_idsOf b) as Hb.
    assert (Ha1 : clientId a ∉ ids l1) by set_solver.
    assert (Ha2 : clientId a ∉ idsOf b) by set_solver.
    assert (Ha3 : clientId a ∉ ids l2) by set_solver.
    assert (Hb1 : clientId b ∉ ids l1) by set_solver.
    assert (Hb2 : clientId b ∉ idsOf a) by set_solver.
    assert (Hb3 : clientId b ∉ ids l2) by set_solver.
    split.
    + rewrite prune_app, !prune_cons, pruneOf_self, (pruneOf_absent _ _ Ha2).
      rewrite !prune_absent by done. cbn [app].
      rewrite graft_app, graft_cons, graftOf_self.
      by rewrite !graft_absent by done.
    + rewrite prune_app, !prune_cons, pruneOf_self, (pruneOf_absent _ _ Hb2).
      rewrite !prune_absent by done. cbn [app].
      rewrite graft_app, graft_cons, graftOf_self.
      by rewrite !graft_absent by done.
  - destruct (exchanged_ids _ _ _ _ Hex) as [Ha Hb].
    destruct x as [cx kx]. cbn [innerBlocks] in *.
    rewrite ids_app, ids_cons, idsOf_mk in Hnd.
    apply NoDup_app in Hnd as (_ & D1 & Hnd).
    apply NoDup_app in Hnd as (Hx & D2 & _).
    apply NoDup_cons in Hx as [Hcx Hkx].
    destruct (IH Hkx) as [IH1 IH2].
    assert (Hout : forall y, y ∈ ids kx ->
              (y ∉ ids l1) /\ (cx ≠ y) /\ (y ∉ ids l2)).
    { intros y Hy. split; [|split].
      - intros Hin. apply (D1 _ Hin). apply elem_of_app. left.
        apply elem_of_cons. by right.
      - intros ->. by apply Hcx.
      - apply D2. apply elem_of_cons. by right. }
    destruct (Hout _ Ha) as (Ha1 & Ha2 & Ha3).
    destruct (Hout _ Hb) as (Hb1 & Hb2 & Hb3).
    unfold withInnerBlocks. cbn [clientId]. split.
    + rewrite prune_app, prune_cons, pruneOf_mk.
      rewrite bool_decide_eq_false_2 by done.
      rewrite (prune_absent _ l1), (prune_absent _ l2) by done. cbn [app].
      rewrite graft_app, graft_cons, graftOf_mk.
      rewrite bool_decide_eq_false_2 by done.
      rewrite (graft_absent _ _ _ l1), (graft_absent _ _ _ l2) by done.
      by rewrite IH1.
    + rewrite prune_app, prune_cons, pruneOf_mk.
      rewrite bool_decide_eq_false_2 by done.
      rewrite (prune_absent _ l1), (prune_absent _ l2) by done. cbn [app].
      rewrite graft_app, graft_cons, graftOf_mk.
      rewrite bool_decide_eq_false_2 by done.
      rewrite (graft_absent _ _ _ l1), (graft_absent _ _ _ l2) by done.
      by rewrite IH2.
Qed.

(** X12. A sibling swap exchanges two adjacent siblings.  When the
    canonical tree has pairwise distinct identities and [moveItem] swaps the
    dragged block with the block the adjacent ledger row names, then, if
    that block is the dragged block's next sibling (moving down) or its
    previous sibling (moving up), the published tree is the canonical tree
    with the two exchanged and nothing else changed. *)
Theorem sibling_swap_exchanges_neighbours (st : ListView) (tick : DragTick)
    (st' : ListView) (other : Block) (swapped : list Block) :
  NoDup (ids (clientIdsTree st)) ->
  moveItem st tick = Returned (SiblingSwap (clientId other)) st' ->
  (directionOf (velocityOf tick) = DOWN /\
   exchanged (block tick) other (clientIdsTree st) swapped) \/
  (directionOf (velocityOf tick) = UP /\
   exchanged other (block tick) (clientIdsTree st) swapped) ->
  tree st' = swapped.
Proof.
  intros Hnd Hmove Hdir. apply moveItem_returned in Hmove. subst st'.
  rewrite publishMove_tree.
  destruct Hdir as [[-> Hex] | [-> Hex]].
  - exact (proj1 (graft_prune_exchanges _ _ _ _ Hex Hnd)).
  - exact (proj2 (graft_prune_exchanges _ _ _ _ Hex Hnd)).
Qed.

Lemma sibling_swap_exchanges_neighbours_witness :
  moveItem scenarioState dragBDown
    = Returned (SiblingSwap "C")
        (publishMove scenarioState (leaf "B") "C" DOWN) /\
  tree (publishMove scenarioState (leaf "B") "C" DOWN)
    = [mkBlock "A" [leaf "C"; leaf "B"]; leaf "D"].
Proof.
  assert (Hmove : moveItem scenarioState dragBDown
                  = Returned (SiblingSwap (clientId (leaf "C")))
                      (publishMove scenarioState (leaf "B") "C" DOWN))
    by (vm_compute; reflexivity).
  split; [exact Hmove|].
  apply (sibling_swap_exchanges_neighbours scenarioState dragBDown _
           (leaf "C") _ ltac:(by_computation) Hmove).
  left. split; [vm_compute; reflexivity|].
  apply (exchanged_inside (leaf "B") (leaf "C") []
           (mkBlock "A" [leaf "B"; leaf "C"]) [leaf "C"; leaf "B"]
           [leaf "D"]).
  apply (exchanged_here (leaf "B") (leaf "C") [] []).
Defined.

(** X13. The pending placement describes the published tree.  When the
    canonical tree has pairwise distinct identities, the dragged block is
    one of its nodes and [moveItem] decides for a target of the canonical
    tree outside the dragged block's subtree, [lastTarget] holds the dragged
    identity, as [originalParent] the parent of the block in the canonical
    tree, and as [targetId] and [targetIndex] the parent and the index at
    which [findCurrentPosition] finds the block in the published tree. *)
Theorem moveItem_placement_matches_published_tree (st : ListView)
    (tick : DragTick) (exit : Exit) (st' : ListView) (target : string) :
  NoDup (ids (clientIdsTree st)) ->
  block tick ∈ nodes (clientIdsTree st) ->
  moveItem st tick = Returned exit st' ->
  exit = EscapeToParent target \/ exit = SiblingSwap target ->
  target ∈ ids (clientIdsTree st) ->
  target ∉ idsOf (block tick) ->
  exists placement origin found,
    lastTarget st' = Some placement /\
    Target.clientId placement = clientId (block tick) /\
    findCurrentPosition (clientIdsTree st) (clientId (block tick)) ""
      = Some origin /\
    Target.originalParent placement = Found.parentId origin /\
    findCurrentPosition (tree st') (clientId (block tick)) "" = Some found /\
    Found.block found = block tick /\
    Found.parentId found = Target.targetId placement /\
    Found.index found = Target.targetIndex placement.
Proof.
  intros Hnd Hnode Hmove Hexit Hin Hout.
  apply moveItem_returned in Hmove.
  assert (Hst : st' = publishMove st (block tick) target
                        (directionOf (velocityOf tick)))
    by (destruct Hexit as [-> | ->]; exact Hmove).
  clear Hmove Hexit. subst st'.
  destruct (findCurrentPosition (clientIdsTree st) (clientId (block tick)) "")
    as [origin|] eqn:Horigin.
  2: { apply findCurrentPosition_None in Horigin.
       exfalso. apply Horigin. by apply node_id_in. }
  pose proof (prune_node_perm _ _ Hnd Hnode) as Hperm.
  assert (Hnd' : NoDup (ids (prune (clientId (block tick)) (clientIdsTree st))))
    by exact (sublist_NoDup _ _ Hnd (prune_sublist _ _)).
  assert (Hin' : target ∈ ids (prune (clientId (block tick)) (clientIdsTree st))).
  { rewrite Hperm in Hin. apply elem_of_app in Hin as [Hin|Hin]; done. }
  destruct (addItemToTree_locates_item
              (prune (clientId (block tick)) (clientIdsTree st)) target
              (block tick) (isDOWN (directionOf (velocityOf tick))) ""
              Hnd' Hin' (prune_not_in _ _)) as [siblings Hfound].
  unfold publishMove. cbn [lastTarget tree].
  rewrite removeItemFromTree_newTree.
  eexists _, origin, _. split; [reflexivity|]. cbn.
  split; [done|]. split; [done|].
  split; [exact (removeLoop_parent_found _ _ "" _ 0 [] origin Hnd Horigin)|].
  split; [exact Hfound|]. done.
Qed.

Lemma moveItem_placement_matches_published_tree_witness :
  lastTarget (publishMove scenarioState (leaf "C") "A" DOWN)
    = Some (Target.mk "C" "A" "" 1) /\
  exists found,
    findCurrentPosition (tree (publishMove scenarioState (leaf "C") "A" DOWN))
      "C" "" = Some found /\
    Found.parentId found = "" /\ Found.index found = 1.
Proof.
  split; [vm_compute; reflexivity|].
  destruct (moveItem_placement_matches_published_tree scenarioState dragCDown
              (EscapeToParent "A")
              (publishMove scenarioState (leaf "C") "A" DOWN) "A")
    as (placement & origin & found & Hlast & _ & _ & _ & Hfound & _ & Hp & Hi).
  - by_computation.
  - by_computation.
  - vm_compute; reflexivity.
  - by left.
  - by_computation.
  - by_computation.
  - exists found. split; [exact Hfound|].
    assert (Hplacement : placement = Target.mk "C" "A" "" 1).
    { assert (Hl : lastTarget (publishMove scenarioState (leaf "C") "A" DOWN)
                   = Some (Target.mk "C" "A" "" 1)) by (vm_compute; reflexivity).
      rewrite Hl in Hlast. by injection Hlast as <-. }
    rewrite Hp, Hi, Hplacement. done.
Defined.

(** ** The two variants of the drag controller and drop committer *)




(** X15. The translate-based [dropItem] always dispatches when a placement
    is pending, also when the recorded target cannot be found in the tree
    without the dragged block (it names the dragged block itself, one of
    its descendants, or a block that is gone): the command then carries an
    undefined target parent and the index [NaN] when moving down and
    [undefined] when moving up. *)
Theorem Delta_dropItem_unfound_target (dst : Delta.ListView)
    (last : Delta.Target.t) :
  Delta.lastTarget dst = Some last ->
  Position.clientId (Delta.Target.targetPosition last)
    ∉ ids (Delta.removeItemFromTree (Delta.clientIdsTree dst)
             (Delta.Target.clientId last)) ->
  Delta.dispatched (Delta.dropItem dst)
  = Delta.dispatched dst ++
      [Delta.MoveBlocks.mk [Delta.Target.clientId last]
         (Found.parentId <$>
            findCurrentPosition (Delta.clientIdsTree dst)
              (Delta.Target.clientId last) "")
         None
         (if Delta.Target.movingDown last
          then Delta.IndexNaN else Delta.IndexUndefined)] /\
  Delta.lastTarget (Delta.dropItem dst) = None.
Proof.
  intros Hlast Hnot. unfold Delta.dropItem. rewrite Hlast.
  apply findCurrentPosition_None with (p := "") in Hnot. rewrite Hnot.
  cbn [Delta.dispatched Delta.lastTarget]. split; [|done].
  by destruct (Delta.Target.movingDown last).
Qed.

Lemma Delta_dropItem_unfound_target_witness :
  Delta.dispatched
    (Delta.dropItem
       (Delta.moveItem
          (Delta.mkListView collapsedTree collapsedTree
             (positions staleState) None false [] [])
          (leaf "C") 1 (Finite 20)))
  = [Delta.MoveBlocks.mk ["C"] (Some "") None Delta.IndexNaN].
Proof.
  destruct (Delta_dropItem_unfound_target
              (Delta.moveItem
                 (Delta.mkListView collapsedTree collapsedTree
                    (positions staleState) None false [] [])
                 (leaf "C") 1 (Finite 20))
              (Delta.Target.mk "C" (Position.mk "C" None) true))
    as (Hcmd & _).
  - vm_compute; reflexivity.
  - by_computation.
  - etrans; [exact Hcmd|]. vm_compute; reflexivity.
Defined.


(** ** The rows [ListViewBranch] renders *)

Lemma compact_Some blocks : compact (Some <$> blocks) = blocks.
Proof. induction blocks as [|b l IH]; [done|]. unfold compact in *. simpl. by f_equal. Qed.

Lemma blockRows_app l1 l2 : blockRows (l1 ++ l2) = blockRows l1 ++ blockRows l2.
Proof. apply omap_app. Qed.

Lemma blockRows_row r l : blockRows (BlockRow r :: l) = r :: blockRows l.
Proof. done. Qed.

Lemma ListViewBranchInner_unfold view c inner props :
  ListViewBranchInner view (mkBlock c inner) props
  = branchElements view (ListViewBranchInner view) props inner.
Proof. done. Qed.

Lemma blockRows_branchElements view render props filtered :
  blockRows (branchElements view render props filtered)
  = blockRows
      (branchLoop view render props filtered None filtered 0
         (Branch.listPosition props)).
Proof.
  unfold branchElements. rewrite blockRows_app.
  destruct (hasAppender view props); simpl; by rewrite app_nil_r.
Qed.

Lemma countReducer_adds es count b :
  countReducer es count b = count + countBlocks es b.
Proof.
  unfold countReducer, countReducerWith. rewrite (countBlocks_unfold es b).
  destruct (isExpandedIn es (clientId b)); simpl; [|done].
  destruct (0 <? Z.of_nat (length (innerBlocks b))) eqn:Hlen; [done|].
  apply no_inner_nil in Hlen. rewrite Hlen. simpl. lia.
Qed.

Lemma countAll_cons es b blocks :
  countAll es (b :: blocks) = countBlocks es b + countAll es blocks.
Proof. done. Qed.

Lemma fold_left_countReducer es blocks count :
  fold_left (countReducer es) blocks count = count + countAll es blocks.
Proof.
  revert count. induction blocks as [|b l IH]; intros count.
  - simpl. lia.
  - rewrite countAll_cons. cbn [fold_left]. rewrite IH, countReducer_adds. lia.
Qed.

Lemma countBlocks_countAll es b :
  countBlocks es b
  = if isExpandedIn es (clientId b) then 1 + countAll es (innerBlocks b) else 1.
Proof.
  rewrite countBlocks_unfold. by rewrite fold_left_countReducer, Z.add_0_l.
Qed.

Lemma countAll_nonneg es blocks : 0 <= countAll es blocks.
Proof.
  induction blocks as [|c inner rest IHinner IHrest] using forest_ind;
    [done|].
  rewrite countAll_cons, countBlocks_countAll. cbn [innerBlocks].
  case_match; lia.
Qed.

Lemma countBlocks_pos es b : 1 <= countBlocks es b.
Proof.
  rewrite countBlocks_countAll.
  pose proof (countAll_nonneg es (innerBlocks b)). case_match; lia.
Qed.

Lemma seqZ_cons_app m n1 n2 :
  0 <= n1 -> 0 <= n2 ->
  seqZ m (1 + n1 + n2) = m :: seqZ (m + 1) n1 ++ seqZ (m + 1 + n1) n2.
Proof.
  intros H1 H2. rewrite seqZ_cons by lia. f_equal.
  replace (Z.pred (1 + n1 + n2)) with (n1 + n2) by lia.
  rewrite seqZ_app by lia. by rewrite Z.add_1_r.
Qed.

Lemma branchLoop_listPositions view rest :
  View.showNestedBlocks view = true ->
  forall props filtered previous index nextPosition,
    ListViewBlock.listPosition <$>
      blockRows
        (branchLoop view (ListViewBranchInner view) props filtered previous
           rest index nextPosition)
    = seqZ
        (nextPosition
         + from_option (countBlocks (View.expandedState view)) 0 previous)
        (countAll (View.expandedState view) rest).
Proof.
  intros Hnested.
  induction rest as [|c inner rest IHinner IHrest] using forest_ind;
    intros props filtered previous index nextPosition; [done|].
  cbn [branchLoop clientId innerBlocks]. rewrite Hnested.
  set (es := View.expandedState view) in *.
  set (start := nextPosition + from_option (countBlocks es) 0 previous).
  rewrite blockRows_row, blockRows_app, fmap_cons, fmap_app.
  cbn [ListViewBlock.listPosition].
  assert (Hstart : match previous with
                   | Some prev => nextPosition + countBlocks es prev
                   | None => nextPosition
                   end = start).
  { subst start. destruct previous; simpl; lia. }
  rewrite Hstart, IHrest. cbn [from_option].
  rewrite countAll_cons.
  pose proof (countAll_nonneg es inner) as Hinner.
  pose proof (countAll_nonneg es rest) as Hrest.
  rewrite (countBlocks_countAll es (mkBlock c inner)).
  cbn [clientId innerBlocks]. unfold rowIsExpanded.
  destruct (isExpandedIn es c) eqn:Hexp.
  - rewrite seqZ_cons_app by done. f_equal.
    replace (start + (1 + countAll es inner)) with (start + 1 + countAll es inner)
      by lia.
    f_equal.
    destruct ((true && (0 <? Z.of_nat (length inner)))
              || itemHasAppender view props c) eqn:Hbranch.
    + rewrite bool_decide_eq_true_2 by done. cbn [andb].
      rewrite ListViewBranchInner_unfold, blockRows_branchElements.
      rewrite IHinner. cbn [Branch.listPosition from_option].
      by rewrite Z.add_0_r.
    + cbn [andb]. apply orb_false_iff in Hbranch as [Hlen _].
      cbn [andb] in Hlen.
      apply (no_inner_nil (mkBlock c inner)) in Hlen. cbn in Hlen.
      by subst inner.
  - replace (1 + countAll es rest) with (1 + 0 + countAll es rest) by lia.
    rewrite (seqZ_cons_app start 0 (countAll es rest)) by done.
    f_equal. rewrite Z.add_0_r.
    replace (if ((true && (0 <? Z.of_nat (length inner)))
                 || itemHasAppender view props c)
                && bool_decide
                     ((if (true && (0 <? Z.of_nat (length inner)))
                          || itemHasAppender view props c
                       then Some false else None) = Some true)
             then _ else _) with (@nil Element).
    + done.
    + destruct ((true && (0 <? Z.of_nat (length inner)))
                || itemHasAppender view props c); [|done].
      by rewrite bool_decide_eq_false_2.
Qed.

Lemma ListViewBranch_listPositions view blocks props :
  View.showNestedBlocks view = true ->
  ListViewBlock.listPosition <$> blockRows (ListViewBranch view blocks props)
  = seqZ (Branch.listPosition props)
      (countAll (View.expandedState view) (compact blocks)).
Proof.
  intros Hnested. unfold ListViewBranch.
  rewrite blockRows_branchElements, branchLoop_listPositions by done.
  cbn [from_option]. by rewrite Z.add_0_r.
Qed.

Lemma ListViewBranch_row_total view blocks props :
  View.showNestedBlocks view = true ->
  Z.of_nat (length (blockRows (ListViewBranch view blocks props)))
  = countAll (View.expandedState view) (compact blocks).
Proof.
  intros Hnested.
  rewrite <- (length_fmap ListViewBlock.listPosition).
  rewrite ListViewBranch_listPositions, length_seqZ by done.
  pose proof (countAll_nonneg (View.expandedState view) (compact blocks)).
  lia.
Qed.

(** X16. When nested blocks are shown, the rows of a branch and of the
    branches nested in it are numbered consecutively in render order: the
    k-th row rendered gets [listPosition] plus k, whatever is expanded or
    collapsed, selected, or given an appender. *)
Theorem ListViewBranch_rows_numbered_consecutively (view : View.t)
    (blocks : list (option Block)) (props : Branch.t) :
  View.showNestedBlocks view = true ->
  let rows := blockRows (ListViewBranch view blocks props) in
  ListViewBlock.listPosition <$> rows
  = seqZ (Branch.listPosition props) (Z.of_nat (length rows)) /\
  forall k row,
    rows !! k = Some row ->
    ListViewBlock.listPosition row = (Branch.listPosition props + Z.of_nat k)%Z.
Proof.
  intros Hnested rows.
  assert (Hseq : ListViewBlock.listPosition <$> rows
                 = seqZ (Branch.listPosition props) (Z.of_nat (length rows))).
  { subst rows. rewrite ListViewBranch_row_total by done.
    by apply ListViewBranch_listPositions. }
  split; [exact Hseq|].
  intros k row Hrow.
  assert (Hk : (ListViewBlock.listPosition <$> rows) !! k
               = Some (ListViewBlock.listPosition row))
    by by rewrite list_lookup_fmap, Hrow.
  rewrite Hseq in Hk. by apply lookup_seqZ in Hk as [-> _].
Qed.

Lemma ListViewBranch_rows_numbered_consecutively_witness :
  ListViewBlock.listPosition <$>
    blockRows
      (ListViewBranch (plainView collapsedA) (Some <$> scenarioTree)
         (rootBranch None))
  = [0; 1].
Proof.
  destruct (ListViewBranch_rows_numbered_consecutively (plainView collapsedA)
              (Some <$> scenarioTree) (rootBranch None) eq_refl)
    as [Hseq _].
  etrans; [exact Hseq|]. vm_compute; reflexivity.
Defined.

(** X17. When nested blocks are shown, [countBlocks] of a block is the
    number of rows rendered for it, the block itself and what is visible
    below it, and the rows of a branch are as many as the [countBlocks] of
    its blocks add up to. *)
Theorem countBlocks_counts_rendered_rows (view : View.t)
    (blocks : list (option Block)) (props : Branch.t) :
  View.showNestedBlocks view = true ->
  Z.of_nat (length (blockRows (ListViewBranch view blocks props)))
  = countAll (View.expandedState view) (compact blocks) /\
  forall block,
    Z.of_nat (length (blockRows (ListViewBranch view [Some block] props)))
    = countBlocks (View.expandedState view) block.
Proof.
  intros Hnested. split; [by apply ListViewBranch_row_total|].
  intros block. rewrite ListViewBranch_row_total by done.
  unfold compact. simpl. lia.
Qed.

Lemma countBlocks_counts_rendered_rows_witness :
  Z.of_nat
    (length
       (blockRows
          (ListViewBranch (plainView ∅) [Some threeNodeBranch]
             (rootBranch None))))
  = 3.
Proof.
  rewrite (proj2 (countBlocks_counts_rendered_rows (plainView ∅)
                    [Some threeNodeBranch] (rootBranch None) eq_refl)
             threeNodeBranch).
  vm_compute; reflexivity.
Defined.

Lemma branchLoop_rowIds_sublist view rest :
  forall props filtered previous index nextPosition,
    rowId <$>
      blockRows
        (branchLoop view (ListViewBranchInner view) props filtered previous
           rest index nextPosition)
    `sublist_of` ids rest.
Proof.
  induction rest as [|c inner rest IHinner IHrest] using forest_ind;
    intros props filtered previous index nextPosition; [done|].
  cbn [branchLoop clientId innerBlocks].
  rewrite blockRows_row, blockRows_app, fmap_cons, fmap_app.
  rewrite ids_cons, idsOf_mk. unfold rowId at 1. cbn [ListViewBlock.block clientId].
  cbn [app]. apply sublist_skip. apply sublist_app; [|apply IHrest].
  case_match; [|apply sublist_nil_l].
  rewrite ListViewBranchInner_unfold, blockRows_branchElements.
  apply IHinner.
Qed.

Lemma branchLoop_rowIds_all view rest :
  View.showNestedBlocks view = true ->
  (forall id, id ∈ ids rest -> isExpandedIn (View.expandedState view) id = true) ->
  forall props filtered previous index nextPosition,
    rowId <$>
      blockRows
        (branchLoop view (ListViewBranchInner view) props filtered previous
           rest index nextPosition)
    = ids rest.
Proof.
  intros Hnested.
  induction rest as [|c inner rest IHinner IHrest] using forest_ind;
    intros Hexp props filtered previous index nextPosition; [done|].
  rewrite ids_cons, idsOf_mk in Hexp.
  cbn [branchLoop clientId innerBlocks]. rewrite Hnested.
  rewrite blockRows_row, blockRows_app, fmap_cons, fmap_app.
  rewrite ids_cons, idsOf_mk. unfold rowId at 1. cbn [ListViewBlock.block clientId].
  cbn [app]. f_equal.
  rewrite IHrest by (intros id Hid; apply Hexp; set_solver).
  f_equal. unfold rowIsExpanded.
  rewrite (Hexp c) by set_solver.
  destruct ((true && (0 <? Z.of_nat (length inner)))
            || itemHasAppender view props c) eqn:Hbranch.
  - rewrite bool_decide_eq_true_2 by done. cbn [andb].
    rewrite ListViewBranchInner_unfold, blockRows_branchElements.
    apply IHinner. intros id Hid. apply Hexp. set_solver.
  - cbn [andb]. apply orb_false_iff in Hbranch as [Hlen _].
    cbn [andb] in Hlen.
    apply (no_inner_nil (mkBlock c inner)) in Hlen. cbn in Hlen.
    by subst inner.
Qed.

(** X18. The identities of the rows a branch renders, in render order, are
    a subsequence of the identities of its blocks in document order: no
    row is invented, repeated or out of order.  When nested blocks are
    shown and every identity of the tree reads as expanded, every node gets
    a row. *)
Theorem ListViewBranch_rows_follow_tree (view : View.t)
    (blocks : list (option Block)) (props : Branch.t) :
  let rows := blockRows (ListViewBranch view blocks props) in
  (rowId <$> rows) `sublist_of` ids (compact blocks) /\
  (View.showNestedBlocks view = true ->
   (forall id, id ∈ ids (compact blocks) ->
               isExpandedIn (View.expandedState view) id = true) ->
   rowId <$> rows = ids (compact blocks)).
Proof.
  simpl. unfold ListViewBranch. rewrite blockRows_branchElements. split.
  - apply branchLoop_rowIds_sublist.
  - intros Hnested Hexp. by apply branchLoop_rowIds_all.
Qed.

Lemma ListViewBranch_rows_follow_tree_witness :
  rowId <$>
    blockRows
      (ListViewBranch (plainView ∅) (Some <$> scenarioTree) (rootBranch None))
  = ["A"; "B"; "C"; "D"].
Proof.
  rewrite (proj2 (ListViewBranch_rows_follow_tree (plainView ∅)
                    (Some <$> scenarioTree) (rootBranch None)) eq_refl).
  - vm_compute; reflexivity.
  - intros id _. reflexivity.
Defined.

Lemma branchLoop_rowId_in view rest props filtered previous index np row :
  row ∈ blockRows
          (branchLoop view (ListViewBranchInner view) props filtered previous
             rest index np) ->
  rowId row ∈ ids rest.
Proof.
  intros Hrow.
  eapply elem_of_sublist; [|apply branchLoop_rowIds_sublist].
  apply list_elem_of_fmap. eauto.
Qed.


Lemma branchLoop_rows_located view rest :
  forall props pre p index previous np row,
    NoDup (ids (pre ++ rest)) ->
    index = Z.of_nat (length pre) ->
    row ∈ blockRows
            (branchLoop view (ListViewBranchInner view) props (pre ++ rest)
               previous rest index np) ->
    exists found,
      findLoop (findCurrentPositionInner (rowId row)) (rowId row) p
        (pre ++ rest) rest index = Some found /\
      rowMatches props p row found.
Proof.
  induction rest as [|c inner rest IHinner IHrest] using forest_ind;
    intros props pre p index previous np row Hnd Hindex Hrow.
  { by apply elem_of_nil in Hrow. }
  assert (Hnd' : NoDup (ids (mkBlock c inner :: rest))).
  { rewrite ids_app in Hnd. by apply NoDup_app in Hnd as (_ & _ & Hnd). }
  rewrite ids_cons, idsOf_mk in Hnd'. cbn [app] in Hnd'.
  apply NoDup_cons in Hnd' as [Hc Hnd'].
  apply NoDup_app in Hnd' as (Hinner & Hdisj & Hrest).
  cbn [branchLoop clientId innerBlocks] in Hrow.
  rewrite blockRows_row, blockRows_app in Hrow.
  apply elem_of_cons in Hrow as [-> | Hrow].
  - unfold rowId. cbn [ListViewBlock.block clientId]. rewrite findLoop_cons.
    rewrite bool_decide_eq_true_2 by done.
    eexists. split; [reflexivity|]. unfold rowMatches.
    cbn [Found.block Found.index Found.tree Found.parentId ListViewBlock.block
         ListViewBlock.position ListViewBlock.siblingBlockCount
         ListViewBlock.parentId ListViewBlock.level].
    split; [done|]. split; [done|]. split; [done|]. by left.
  - apply elem_of_app in Hrow as [Hrow | Hrow].
    + case_match; [|by apply elem_of_nil in Hrow].
      rewrite ListViewBranchInner_unfold, blockRows_branchElements in Hrow.
      assert (Hne : c ≠ rowId row).
      { intros Heq. apply Hc. rewrite Heq. apply elem_of_app. left.
        by eapply branchLoop_rowId_in. }
      destruct (IHinner _ [] c 0 None _ row Hinner eq_refl Hrow)
        as (found & Hfound & Hblock & Hposition & Hcount & Hparent).
      exists found. split.
      * rewrite findLoop_cons.
        rewrite bool_decide_eq_false_2 by done.
        unfold findCurrentPosition. cbn [app] in Hfound. by rewrite Hfound.
      * split; [done|]. split; [done|]. split; [done|]. right.
        cbn [Branch.parentBlockClientId Branch.level] in Hparent.
        destruct Hparent as [(-> & -> & ->) | [-> Hlevel]];
          (split; [done | lia]).
    + assert (Hid : rowId row ∈ ids rest) by by eapply branchLoop_rowId_in.
      specialize (IHrest props (pre ++ [mkBlock c inner]) p (index + 1)
                    (Some (mkBlock c inner))
                    (match previous with
                     | Some prev =>
                         np + countBlocks (View.expandedState view) prev
                     | None => np
                     end) row).
      rewrite <- app_assoc in IHrest. cbn [app] in IHrest.
      destruct IHrest as (found & Hfound & Hmatches); [done | | done |].
      { rewrite length_app. simpl. lia. }
      exists found. split; [|done].
      rewrite findLoop_skip; [done|].
      rewrite idsOf_mk. apply not_elem_of_cons. split.
      * intros Heq. apply Hc. rewrite <- Heq. apply elem_of_app. by right.
      * intros Hin. by apply (Hdisj _ Hin).
Qed.

(** X19. In a tree with pairwise distinct identities every rendered row
    agrees with what [findCurrentPosition] returns for the row's identity:
    the row shows the block found, its [position] is the found index plus
    one, its [siblingBlockCount] is the length of the array the block is
    in, and a nested row's [parentId] is the found parent; a row of the
    branch itself carries the branch's own [parentBlockClientId] and
    [level]. *)
Theorem ListViewBranch_rows_agree_with_findCurrentPosition (view : View.t)
    (blocks : list (option Block)) (props : Branch.t) (parentId : string)
    (row : ListViewBlock.t) :
  NoDup (ids (compact blocks)) ->
  row ∈ blockRows (ListViewBranch view blocks props) ->
  exists found,
    findCurrentPosition (compact blocks) (rowId row) parentId = Some found /\
    Found.block found = ListViewBlock.block row /\
    ListViewBlock.position row = (Found.index found + 1)%Z /\
    ListViewBlock.siblingBlockCount row = Z.of_nat (length (Found.tree found)) /\
    ((Found.parentId found = parentId /\
      ListViewBlock.parentId row = Branch.parentBlockClientId props /\
      ListViewBlock.level row = Branch.level props) \/
     (ListViewBlock.parentId row = Some (Found.parentId found) /\
      (Branch.level props < ListViewBlock.level row)%Z)).
Proof.
  intros Hnd Hrow. unfold ListViewBranch in Hrow.
  rewrite blockRows_branchElements in Hrow.
  exact (branchLoop_rows_located view (compact blocks) props [] parentId 0
           None _ row Hnd eq_refl Hrow).
Qed.

Lemma ListViewBranch_rows_agree_with_findCurrentPosition_witness :
  exists row found,
    blockRows
      (ListViewBranch (plainView ∅) (Some <$> scenarioTree) (rootBranch None))
      !! 2%nat = Some row /\
    rowId row = "C" /\
    findCurrentPosition scenarioTree "C" "" = Some found /\
    ListViewBlock.position row = (Found.index found + 1)%Z /\
    ListViewBlock.parentId row = Some "A".
Proof.
  assert (Hrow : exists row,
             blockRows
               (ListViewBranch (plainView ∅) (Some <$> scenarioTree)
                  (rootBranch None)) !! 2%nat = Some row /\
             rowId row = "C" /\ ListViewBlock.parentId row = Some "A").
  { eexists. split; [vm_compute; reflexivity|]. split; reflexivity. }
  destruct Hrow as (row & Hlook & Hid & Hparent).
  destruct (ListViewBranch_rows_agree_with_findCurrentPosition (plainView ∅)
              (Some <$> scenarioTree) (rootBranch None) "" row)
    as (found & Hfound & _ & Hposition & _).
  - by_computation.
  - by eapply list_elem_of_lookup_2.
  - exists row, found. rewrite Hid in Hfound.
    split; [exact Hlook|]. split; [exact Hid|]. split; [exact Hfound|].
    split; [exact Hposition | exact Hparent].
Defined.

(** ** Breaking out of a container *)

Lemma promoted_ids a parent after T T' :
  promoted a parent after T T' -> clientId a ∈ ids T /\ parent ∈ ids T.
Proof.
  induction 1 as [l1 k1 k2 l2 | l1 x inner l2 _ [IHa IHp]].
  - rewrite ids_app, ids_cons, idsOf_mk, ids_app, ids_cons.
    pose proof (clientId_in_idsOf a). split; set_solver.
  - rewrite ids_app, ids_cons. destruct x as [cx kx]. rewrite idsOf_mk.
    cbn [innerBlocks] in *. split; set_solver.
Qed.

Lemma graft_prune_promotes a parent after T T' :
  promoted a parent after T T' ->
  NoDup (ids T) ->
  graft parent a after (prune (clientId a) T) = T'.
Proof.
  induction 1 as [l1 k1 k2 l2 | l1 x inner l2 Hpro IH]; intros Hnd.
  - rewrite ids_app, ids_cons, idsOf_mk, ids_app, ids_cons in Hnd.
    apply NoDup_app in Hnd as (_ & D1 & Hnd).
    apply NoDup_app in Hnd as (Hp & D2 & _).
    apply NoDup_cons in Hp as [Hparent Hkids].
    apply NoDup_app in Hkids as (_ & D3 & Hkids).
    apply NoDup_app in Hkids as (_ & D4 & _).
    pose proof (clientId_in_idsOf a) as Ha.
    assert (Ha1 : clientId a ∉ ids l1).
    { intros Hin. apply (D1 _ Hin). set_solver. }
    assert (Ha2 : parent ≠ clientId a).
    { intros ->. apply Hparent. set_solver. }
    assert (Ha3 : clientId a ∉ ids l2).
    { apply D2. set_solver. }
    assert (Ha4 : clientId a ∉ ids k1).
    { intros Hin. apply (D3 _ Hin). set_solver. }
    assert (Ha5 : clientId a ∉ ids k2) by (by apply D4).
    assert (Hp1 : parent ∉ ids l1).
    { intros Hin. apply (D1 _ Hin). set_solver. }
    assert (Hp2 : parent ∉ ids l2).
    { apply D2. set_solver. }
    rewrite prune_app, prune_cons, pruneOf_mk.
    rewrite bool_decide_eq_false_2 by done.
    rewrite prune_app, prune_cons, pruneOf_self.
    rewrite (prune_absent _ l1), (prune_absent _ l2), (prune_absent _ k1),
      (prune_absent _ k2) by done.
    cbn [app]. rewrite graft_app, graft_cons, graftOf_mk.
    rewrite bool_decide_eq_true_2 by done.
    by rewrite (graft_absent _ _ _ l1), (graft_absent _ _ _ l2) by done.
  - destruct (promoted_ids _ _ _ _ _ Hpro) as [Ha Hp].
    destruct x as [cx kx]. cbn [innerBlocks] in *.
    rewrite ids_app, ids_cons, idsOf_mk in Hnd.
    apply NoDup_app in Hnd as (_ & D1 & Hnd).
    apply NoDup_app in Hnd as (Hx & D2 & _).
    apply NoDup_cons in Hx as [Hcx Hkx].
    assert (Hout : forall y, y ∈ ids kx ->
              (y ∉ ids l1) /\ (cx ≠ y) /\ (y ∉ ids l2)).
    { intros y Hy. split; [|split].
      - intros Hin. apply (D1 _ Hin). apply elem_of_app. left.
        apply elem_of_cons. by right.
      - intros ->. by apply Hcx.
      - apply D2. apply elem_of_cons. by right. }
    destruct (Hout _ Ha) as (Ha1 & Ha2 & Ha3).
    destruct (Hout _ Hp) as (Hp1 & Hp2 & Hp3).
    unfold withInnerBlocks. cbn [clientId].
    rewrite prune_app, prune_cons, pruneOf_mk.
    rewrite bool_decide_eq_false_2 by done.
    rewrite (prune_absent _ l1), (prune_absent _ l2) by done. cbn [app].
    rewrite graft_app, graft_cons, graftOf_mk.
    rewrite bool_decide_eq_false_2 by done.
    rewrite (graft_absent _ _ _ l1), (graft_absent _ _ _ l2) by done.
    by rewrite (IH Hkx).
Qed.

(** X20. Escape-to-parent promotes the block one level.  When the
    canonical tree has pairwise distinct identities and [moveItem] takes the
    break-out branch for a parent identity whose node has the dragged block
    among its [innerBlocks], the published tree is the canonical tree with
    the block taken out of that node and put right after it when moving
    down, right before it when moving up; nothing else changes. *)
Theorem escape_promotes_block (st : ListView) (tick : DragTick)
    (parent : string) (st' : ListView) (promotedTree : list Block) :
  NoDup (ids (clientIdsTree st)) ->
  moveItem st tick = Returned (EscapeToParent parent) st' ->
  promoted (block tick) parent (isDOWN (directionOf (velocityOf tick)))
    (clientIdsTree st) promotedTree ->
  tree st' = promotedTree.
Proof.
  intros Hnd Hmove Hpro. apply moveItem_returned in Hmove. subst st'.
  rewrite publishMove_tree. by apply graft_prune_promotes.
Qed.

Lemma escape_promotes_block_witness :
  moveItem scenarioState dragCDown
    = Returned (EscapeToParent "A")
        (publishMove scenarioState (leaf "C") "A" DOWN) /\
  tree (publishMove scenarioState (leaf "C") "A" DOWN)
    = [mkBlock "A" [leaf "B"]; leaf "C"; leaf "D"].
Proof.
  assert (Hmove : moveItem scenarioState dragCDown
                  = Returned (EscapeToParent "A")
                      (publishMove scenarioState (leaf "C") "A" DOWN))
    by (vm_compute; reflexivity).
  split; [exact Hmove|].
  apply (escape_promotes_block scenarioState dragCDown "A" _ _
           ltac:(by_computation) Hmove).
  apply (promoted_here (leaf "C") "A" true [] [leaf "B"] [] [leaf "D"]).
Defined.

(** ** Expanding and collapsing rows *)

Lemma truthy_nonempty s id : truthy s = Some id -> id ≠ "".
Proof. intros H. by apply truthy_Some in H as [_ ?]. Qed.

Lemma expand_lookup state clientId id :
  expand state clientId !! id
  = if bool_decide (truthy clientId = Some id) then Some true else state !! id.
Proof.
  unfold expand. destruct (truthy clientId) as [x|] eqn:Hx.
  - unfold expanded. simpl.
    destruct (decide (x = id)) as [->|Hne].
    + by rewrite lookup_insert_eq, bool_decide_eq_true_2.
    + rewrite lookup_insert_ne by done.
      by rewrite bool_decide_eq_false_2 by congruence.
  - by rewrite bool_decide_eq_false_2.
Qed.

Lemma collapse_lookup state clientId id :
  collapse state clientId !! id
  = if bool_decide (truthy clientId = Some id) then Some false else state !! id.
Proof.
  unfold collapse. destruct (truthy clientId) as [x|] eqn:Hx.
  - unfold expanded. simpl.
    destruct (decide (x = id)) as [->|Hne].
    + by rewrite lookup_insert_eq, bool_decide_eq_true_2.
    + rewrite lookup_insert_ne by done.
      by rewrite bool_decide_eq_false_2 by congruence.
  - by rewrite bool_decide_eq_false_2.
Qed.

(** X21. Toggling a row with a nested branch flips what the row reads as
    its expansion and leaves every other identity's reading alone, so
    toggling twice restores the reading (also for a row that had no entry,
    which reads as expanded, then collapsed, then expanded).  A row
    without a nested branch, and a row with an empty identity, cannot be
    toggled. *)
Theorem toggleExpanded_flips_reading (state : gmap string bool)
    (id : string) :
  let isExpanded := rowIsExpanded state true id in
  let toggled := toggleExpanded state isExpanded id in
  (id ≠ "" ->
   rowIsExpanded toggled true id = negb <$> isExpanded /\
   rowIsExpanded
     (toggleExpanded toggled (rowIsExpanded toggled true id) id) true id
   = isExpanded) /\
  (forall other, other ≠ id -> toggled !! other = state !! other) /\
  toggleExpanded state (rowIsExpanded state false id) id = state /\
  toggleExpanded state (rowIsExpanded state true "") "" = state.
Proof.
  simpl. unfold rowIsExpanded, toggleExpanded. split; [|split; [|split]].
  - intros Hne.
    assert (Htruthy : truthy (Some id) = Some id).
    { apply truthy_Some. done. }
    assert (Hcollapsed : forall s, isExpandedIn (collapse s (Some id)) id = false).
    { intros s. unfold isExpandedIn. rewrite collapse_lookup.
      by rewrite bool_decide_eq_true_2. }
    assert (Hexpanded : forall s, isExpandedIn (expand s (Some id)) id = true).
    { intros s. unfold isExpandedIn. rewrite expand_lookup.
      by rewrite bool_decide_eq_true_2. }
    destruct (isExpandedIn state id) eqn:Hexp; simpl.
    + rewrite Hcollapsed. by rewrite Hexpanded.
    + rewrite Hexpanded. by rewrite Hcollapsed.
  - intros other Hother.
    destruct (isExpandedIn state id);
      rewrite ?collapse_lookup, ?expand_lookup;
      rewrite bool_decide_eq_false_2; try done;
      intros Heq; apply truthy_Some in Heq as [[= ->] _]; done.
  - done.
  - by destruct (isExpandedIn state "").
Qed.

Lemma toggleExpanded_flips_reading_witness :
  rowIsExpanded ∅ true "P" = Some true /\
  rowIsExpanded (toggleExpanded ∅ (rowIsExpanded ∅ true "P") "P") true "P"
  = Some false.
Proof.
  split; [reflexivity|].
  destruct (toggleExpanded_flips_reading ∅ "P") as [Hflip _].
  destruct (Hflip ltac:(done)) as [Hread _].
  etrans; [exact Hread|]. reflexivity.
Defined.

(** X22. Through [expand] and [collapse] the empty identity never gets an
    entry and an undefined identity changes nothing: over any sequence of
    calls, a state without an entry for [''] stays without one, and every
    entry created is for an identity some call named. *)
Theorem guarded_calls_never_key_empty (state : gmap string bool)
    (calls : list (bool * option string)) :
  state !! "" = None ->
  foldl applyCall state calls !! "" = None /\
  forall id,
    state !! id = None ->
    is_Some (foldl applyCall state calls !! id) ->
    exists call, call ∈ calls /\ snd call = Some id.
Proof.
  revert state. induction calls as [|call calls IH]; intros state Hempty.
  - split; [done|]. intros id Hnone [x Hx]. simpl in Hx. congruence.
  - assert (Hstep : forall id,
              applyCall state call !! id
              = if bool_decide (truthy (snd call) = Some id)
                then Some (fst call) else state !! id).
    { intros id. unfold applyCall. destruct call as [[] arg]; simpl.
      - apply expand_lookup.
      - apply collapse_lookup. }
    assert (Hempty' : applyCall state call !! "" = None).
    { rewrite Hstep. rewrite bool_decide_eq_false_2; [done|].
      intros Heq. by apply truthy_nonempty in Heq. }
    destruct (IH _ Hempty') as [IH1 IH2]. split; [exact IH1|].
    intros id Hnone Hsome. cbn [foldl] in Hsome.
    destruct (decide (truthy (snd call) = Some id)) as [Hcall|Hcall].
    + exists call. split; [apply elem_of_cons; by left|].
      by apply truthy_Some in Hcall as [? _].
    + destruct (IH2 id) as (call' & Hin & Harg); [|done|].
      * rewrite Hstep. by rewrite bool_decide_eq_false_2.
      * exists call'. split; [apply elem_of_cons; by right | done].
Qed.

Lemma guarded_calls_never_key_empty_witness :
  foldl applyCall ∅
    [(true, Some ""); (false, None); (false, Some "P")] !! "" = None /\
  foldl applyCall ∅
    [(true, Some ""); (false, None); (false, Some "P")] !! "P" = Some false.
Proof.
  split; [|vm_compute; reflexivity].
  apply (guarded_calls_never_key_empty ∅
           [(true, Some ""); (false, None); (false, Some "P")]).
  reflexivity.
Defined.

(** ** From decision to commit *)

Lemma publishMove_placement st item target direction :
  NoDup (ids (clientIdsTree st)) ->
  item ∈ nodes (clientIdsTree st) ->
  target ∈ ids (clientIdsTree st) ->
  target ∉ idsOf item ->
  let st' := publishMove st item target direction in
  exists origin found,
    findCurrentPosition (clientIdsTree st) (clientId item) "" = Some origin /\
    findCurrentPosition (tree st') (clientId item) "" = Some found /\
    Found.block found = item /\
    lastTarget st'
    = Some (Target.mk (clientId item) (Found.parentId origin)
              (Found.parentId found) (Found.index found)).
Proof.
  intros Hnd Hnode Hin Hout.
  destruct (findCurrentPosition (clientIdsTree st) (clientId item) "")
    as [origin|] eqn:Horigin.
  2: { apply findCurrentPosition_None in Horigin.
       exfalso. apply Horigin. by apply node_id_in. }
  pose proof (prune_node_perm _ _ Hnd Hnode) as Hperm.
  assert (Hnd' : NoDup (ids (prune (clientId item) (clientIdsTree st))))
    by exact (sublist_NoDup _ _ Hnd (prune_sublist _ _)).
  assert (Hin' : target ∈ ids (prune (clientId item) (clientIdsTree st))).
  { rewrite Hperm in Hin. apply elem_of_app in Hin as [Hin|Hin]; done. }
  destruct (addItemToTree_locates_item
              (prune (clientId item) (clientIdsTree st)) target
              item (isDOWN direction) ""
              Hnd' Hin' (prune_not_in _ _)) as [siblings Hfound].
  cbv zeta. unfold publishMove. cbn [lastTarget tree].
  rewrite removeItemFromTree_newTree.
  eexists origin, _. split; [done|]. split; [exact Hfound|].
  split; [done|]. cbn [Found.parentId Found.index].
  pose proof (removeLoop_parent_found _ _ "" _ 0 [] origin Hnd Horigin)
    as Hparent.
  fold (removeItemFromTree (clientIdsTree st) (clientId item) "") in Hparent.
  by rewrite Hparent.
Qed.

(** X23. What is committed is what was shown.  When the canonical tree has
    pairwise distinct identities, the dragged block is one of its nodes and
    [moveItem] decides for a target of the canonical tree outside the
    block's subtree, a [dropItem] right after it dispatches one command and
    the tree rendered from then on is the tree that tick published; in that
    tree [findCurrentPosition] finds the block under the command's target
    parent at the command's index, and the command's source parent is the
    block's parent in the canonical tree. *)
Theorem drop_commits_what_was_shown (st : ListView) (tick : DragTick)
    (exit : Exit) (st' : ListView) (target : string)
    (draggingId : option string) :
  NoDup (ids (clientIdsTree st)) ->
  block tick ∈ nodes (clientIdsTree st) ->
  moveItem st tick = Returned exit st' ->
  exit = EscapeToParent target \/ exit = SiblingSwap target ->
  target ∈ ids (clientIdsTree st) ->
  target ∉ idsOf (block tick) ->
  renderedBlocks draggingId (dropItem st') = tree st' /\
  exists command origin found,
    dispatched (dropItem st') = dispatched st ++ [command] /\
    MoveBlocks.clientIds command = [clientId (block tick)] /\
    findCurrentPosition (clientIdsTree st) (clientId (block tick)) ""
      = Some origin /\
    MoveBlocks.fromRootClientId command = Found.parentId origin /\
    findCurrentPosition (renderedBlocks draggingId (dropItem st'))
      (clientId (block tick)) "" = Some found /\
    Found.block found = block tick /\
    MoveBlocks.toRootClientId command = Found.parentId found /\
    MoveBlocks.index command = Found.index found.
Proof.
  intros Hnd Hnode Hmove Hexit Hin Hout.
  apply moveItem_returned in Hmove.
  assert (Hst : st' = publishMove st (block tick) target
                        (directionOf (velocityOf tick)))
    by (destruct Hexit as [-> | ->]; exact Hmove).
  clear Hmove Hexit.
  destruct (publishMove_placement st (block tick) target
              (directionOf (velocityOf tick)) Hnd Hnode Hin Hout)
    as (origin & found & Horigin & Hfound & Hblock & Hlast).
  rewrite <- Hst in Hfound, Hlast.
  assert (Hdrop : dropItem st'
                  = mkListView (clientIdsTree st') (tree st') (positions st')
                      None true
                      (dispatched st ++
                         [MoveBlocks.mk [clientId (block tick)]
                            (Found.parentId origin) (Found.parentId found)
                            (Found.index found)])
                      (timeouts st')).
  { unfold dropItem. rewrite Hlast. cbn. by subst st'. }
  rewrite Hdrop.
  assert (Hshown : renderedBlocks draggingId
                     (mkListView (clientIdsTree st') (tree st') (positions st')
                        None true
                        (dispatched st ++
                           [MoveBlocks.mk [clientId (block tick)]
                              (Found.parentId origin) (Found.parentId found)
                              (Found.index found)])
                        (timeouts st'))
                   = tree st').
  { unfold renderedBlocks. cbn [dropped tree]. by rewrite orb_true_r. }
  rewrite Hshown. split; [done|].
  eexists _, origin, found. cbn [dispatched]. split; [reflexivity|]. cbn.
  by rewrite Horigin, Hfound.
Qed.

Lemma drop_commits_what_was_shown_witness :
  renderedBlocks None
    (dropItem (publishMove scenarioState (leaf "C") "A" DOWN))
    = [mkBlock "A" [leaf "B"]; leaf "C"; leaf "D"] /\
  dispatched (dropItem (publishMove scenarioState (leaf "C") "A" DOWN))
    = [MoveBlocks.mk ["C"] "A" "" 1].
Proof.
  destruct (drop_commits_what_was_shown scenarioState dragCDown
              (EscapeToParent "A")
              (publishMove scenarioState (leaf "C") "A" DOWN) "A" None)
    as [Hshown _].
  - by_computation.
  - by_computation.
  - vm_compute; reflexivity.
  - by left.
  - by_computation.
  - by_computation.
  - split; [|vm_compute; reflexivity].
    etrans; [exact Hshown|]. vm_compute; reflexivity.
Defined.

(** ** [findFirstValidPosition] *)

Section FirstValidFacts.
Context {Entry : Type}.
Variables dropContainer dropSibling : Entry -> bool.
Variable positions : gmap Z Entry.

Lemma ahead_shrinks iterate index entry :
  iterate = 1 \/ iterate = -1 ->
  positions !! index = Some entry ->
  (size (ahead positions iterate (index + iterate))
   < size (ahead positions iterate index))%nat.
Proof.
  intros Hit Hentry. apply map_subset_size, map_subset_alt. split.
  - apply map_subseteq_spec. intros k e. unfold ahead.
    rewrite !map_lookup_filter_Some. simpl. intros [Hk Hray].
    split; [done|]. destruct Hit as [-> | ->]; lia.
  - exists index. unfold ahead. split.
    + apply map_lookup_filter_None. right. intros e _. simpl.
      destruct Hit as [-> | ->]; lia.
    + exists entry. apply map_lookup_filter_Some. simpl. split; [done|lia].
Qed.

Lemma ahead_size iterate index :
  (size (ahead positions iterate index) <= size positions)%nat.
Proof. apply map_subseteq_size, map_filter_subseteq. Qed.

Lemma firstValidLoop_enough fuel :
  forall iterate index diff,
    iterate = 1 \/ iterate = -1 ->
    (size (ahead positions iterate index) < fuel)%nat ->
    exists result,
      firstValidLoop dropContainer dropSibling positions fuel iterate index
        diff = Some result /\
      forall extra,
        firstValidLoop dropContainer dropSibling positions (fuel + extra)
          iterate index diff = Some result.
Proof.
  induction fuel as [|fuel IH]; intros iterate index diff Hit Hsize; [lia|].
  cbn [firstValidLoop Nat.add].
  destruct (positions !! index) as [position|] eqn:Hposition; [|by eauto].
  destruct (js_gt diff (Finite (ITEM_HEIGHT / 2))); [|by eauto].
  destruct (dropContainer position || dropSibling position); [by eauto|].
  apply IH; [done|].
  pose proof (ahead_shrinks iterate index position Hit Hposition). lia.
Qed.



(** X24. [findFirstValidPosition] terminates: with one iteration allowed
    per ledger entry and one more, the loop returns, and allowing more
    iterations returns the same; the function's result is that return. *)
Theorem findFirstValidPosition_terminates (current : Z) (translate : number)
    (moveDown : bool) :
  let iterate := if moveDown then 1 else -1 in
  exists result,
    findFirstValidPosition dropContainer dropSibling positions current
      translate moveDown = result /\
    forall extra,
      firstValidLoop dropContainer dropSibling positions
        (S (size positions) + extra) iterate (current + iterate)
        (js_abs translate) = Some result.
Proof.
  intros iterate.
  destruct (firstValidLoop_enough (S (size positions)) iterate
              (current + iterate) (js_abs translate))
    as (result & Hresult & Hextra).
  - subst iterate. destruct moveDown; auto.
  - pose proof (ahead_size iterate (current + iterate)). lia.
  - exists result. split; [|done].
    unfold findFirstValidPosition. fold iterate. by rewrite Hresult.
Qed.

End FirstValidFacts.

